(** * OrdinalSupConLoss.construct (code/loss/ordinal_losses.py)

    A shallow embedding of the ordinal supervised-contrastive loss.

    Numbers.  Tensor entries are real numbers: every operation is exact.
    The two operations of the program that leave the finite reals,
    [O.log] (at a zero sum) and the tensor division of line 88 (by a zero
    mask sum), produce the special values of the array runtime, so values
    from line 85 on live in [fval]: a finite real, plus or minus infinity,
    or NaN, with the IEEE rules for the special values and exact arithmetic
    on the finite ones.  The sign of a zero is not tracked (the only zero
    divisors of the program are sums of 0/1 masks and element counts).
    [O.div] by [temperature] (line 68) is modelled on reals, hence for a
    non-zero temperature.

    Tensors.  An input tensor is a shape and its row-major data.  After the
    flattening of line 39 the computation is on 2-D tensors, modelled as
    lists of rows; elementwise operations broadcast a dimension of size 1.
    The results about values are stated for features whose three sizes
    (batch, views, embedding) are at least 1, see [valid_features].

    Effects.  [construct] runs in a small monad that returns either a value
    or the Python exception raised, together with the list of tensor
    operations executed so far. *)

From Stdlib Require Import String.
From Stdlib Require Import Reals Lra Lia List Arith Permutation.
Import ListNotations.
Local Open Scope R_scope.

(** ** Values of the array runtime *)

Inductive fval : Type :=
| Fin (x : R)
| PInf
| NInf
| NaN.

Definition fneg (a : fval) : fval :=
  match a with
  | Fin x => Fin (- x)
  | PInf => NInf
  | NInf => PInf
  | NaN => NaN
  end.

Definition fadd (a b : fval) : fval :=
  match a, b with
  | NaN, _ => NaN
  | _, NaN => NaN
  | Fin x, Fin y => Fin (x + y)
  | PInf, NInf => NaN
  | NInf, PInf => NaN
  | PInf, _ => PInf
  | _, PInf => PInf
  | NInf, _ => NInf
  | _, NInf => NInf
  end.

Definition fsub (a b : fval) : fval := fadd a (fneg b).

(** [inf_scaled pos x] is (+inf) * x when [pos], (-inf) * x otherwise;
    it is also x / 0 for [pos = true]. *)
Definition inf_scaled (pos : bool) (x : R) : fval :=
  if Rlt_dec 0 x then (if pos then PInf else NInf)
  else if Rlt_dec x 0 then (if pos then NInf else PInf)
  else NaN.

Definition fmul (a b : fval) : fval :=
  match a, b with
  | NaN, _ => NaN
  | _, NaN => NaN
  | Fin x, Fin y => Fin (x * y)
  | Fin x, PInf => inf_scaled true x
  | PInf, Fin x => inf_scaled true x
  | Fin x, NInf => inf_scaled false x
  | NInf, Fin x => inf_scaled false x
  | PInf, PInf => PInf
  | NInf, NInf => PInf
  | PInf, NInf => NInf
  | NInf, PInf => NInf
  end.

Definition fdiv (a b : fval) : fval :=
  match a, b with
  | NaN, _ => NaN
  | _, NaN => NaN
  | Fin x, Fin y => if Req_dec_T y 0 then inf_scaled true x else Fin (x / y)
  | Fin _, PInf => Fin 0
  | Fin _, NInf => Fin 0
  | PInf, Fin y => if Rlt_dec y 0 then NInf else PInf
  | NInf, Fin y => if Rlt_dec y 0 then PInf else NInf
  | PInf, PInf => NaN
  | PInf, NInf => NaN
  | NInf, PInf => NaN
  | NInf, NInf => NaN
  end.

Definition flog (x : R) : fval :=
  if Rlt_dec 0 x then Fin (ln x)
  else if Req_dec_T x 0 then NInf
  else NaN.

Definition is_finite (a : fval) : Prop := exists x, a = Fin x.

(** ** Tensors *)

Record tensor : Type := mkTensor { shape : list nat; data : list R }.

Definition prod_dims (s : list nat) : nat := fold_right Nat.mul 1%nat s.

Definition wf_tensor (t : tensor) : Prop :=
  length (data t) = prod_dims (shape t).

Definition matrix (A : Type) : Type := list (list A).

Definition nrows {A} (m : matrix A) : nat := length m.
Definition ncols {A} (m : matrix A) : nat := length (hd [] m).
Definition get {A} (d : A) (m : matrix A) (i j : nat) : A :=
  nth j (nth i m []) d.

Definition slice {A} (off len : nat) (l : list A) : list A :=
  firstn len (skipn off l).

Definition rsum (l : list R) : R := fold_right Rplus 0 l.
Definition fsum (l : list fval) : fval := fold_right fadd (Fin 0) l.

Fixpoint zipWith {A B C} (f : A -> B -> C) (u : list A) (v : list B) : list C :=
  match u, v with
  | x :: u', y :: v' => f x y :: zipWith f u' v'
  | _, _ => []
  end.

Definition dot (u v : list R) : R := rsum (zipWith Rmult u v).

Definition eye (n m : nat) : matrix R :=
  map (fun i => map (fun j => if Nat.eqb i j then 1 else 0) (seq 0 m)) (seq 0 n).

Definition transpose (m : matrix R) : matrix R :=
  map (fun j => map (fun r => nth j r 0) m) (seq 0 (ncols m)).

Definition matmul (a b : matrix R) : matrix R :=
  map (fun r => map (dot r) (transpose b)) a.

Definition emap {A B} (f : A -> B) (m : matrix A) : matrix B := map (map f) m.

(** Broadcasting of two 2-D operands: a dimension of size 1 is repeated. *)
Definition bdim (a b : nat) : nat := if Nat.eqb a 1 then b else a.

Definition bget {A} (d : A) (m : matrix A) (i j : nat) : A :=
  get d m (if Nat.eqb (nrows m) 1 then 0%nat else i)
          (if Nat.eqb (ncols m) 1 then 0%nat else j).

Definition bcast2 {A B C} (da : A) (db : B) (f : A -> B -> C)
    (x : matrix A) (y : matrix B) : matrix C :=
  map (fun i => map (fun j => f (bget da x i j) (bget db y i j))
                    (seq 0 (bdim (ncols x) (ncols y))))
      (seq 0 (bdim (nrows x) (nrows y))).

(** [m.tile((a, c))]: [a] copies down, [c] copies across. *)
Definition tile {A} (a c : nat) (m : matrix A) : matrix A :=
  concat (repeat (map (fun r => concat (repeat r c)) m) a).

Definition row_max (r : list R) : R :=
  match r with
  | [] => 0
  | x :: t => fold_left Rmax t x
  end.

Definition req (x y : R) : bool := if Req_dec_T x y then true else false.
Definition float_of_bool (b : bool) : R := if b then 1 else 0.

(** [t.view(-1, 1)]: all the elements, one per row. *)
Definition view_col (t : tensor) : matrix R := map (fun x => [x]) (data t).

(** The rows of a 2-D tensor. *)
Definition rows_of (t : tensor) : matrix R :=
  match shape t with
  | [p; q] => map (fun i => slice (i * q) q (data t)) (seq 0 p)
  | _ => []
  end.

(** [features.view(shape[0], shape[1], -1)]: the trailing dimensions are
    merged, the size written -1 being their product. *)
Definition view3 (t : tensor) : tensor :=
  match shape t with
  | s0 :: s1 :: rest => mkTensor [s0; s1; prod_dims rest] (data t)
  | _ => t
  end.

Definition dim (k : nat) (t : tensor) : nat := nth k (shape t) 0%nat.

(** Row [features[b, v, :]] of a 3-D tensor. *)
Definition frow (t : tensor) (b v : nat) : list R :=
  slice ((b * dim 1 t + v) * dim 2 t) (dim 2 t) (data t).

(** [O.unbind(features, dim=1)]: one [batch, dim] matrix per view. *)
Definition unbind1 (t : tensor) : list (matrix R) :=
  map (fun v => map (fun b => frow t b v) (seq 0 (dim 0 t))) (seq 0 (dim 1 t)).

(** [features[:, 0]] *)
Definition getitem_view0 (t : tensor) : matrix R :=
  map (fun b => frow t b 0) (seq 0 (dim 0 t)).

(** ** Exceptions, executed operations, and the monad *)

Inductive error : Type :=
| ValueError_rank             (* line 36 *)
| ValueError_labels_and_mask  (* line 43 *)
| ValueError_num_labels       (* line 49 *)
| ValueError_unknown_mode     (* line 65 *)
| ValueError_matmul_shape     (* O.matmul on operands whose inner sizes differ *)
| NameError_weights           (* line 84: local [weights] never assigned *)
| ZeroDivisionError           (* line 91: Python float division *)
| ValueError_view.            (* line 92: view to a shape of another size *)

Inductive op : Type :=
| OpView | OpEye | OpTranspose | OpEqual | OpFloat | OpTile | OpSub | OpAbs
| OpUnbind | OpCat | OpGetitem | OpMatmul | OpDiv | OpMax | OpMul | OpAdd
| OpExp | OpLog | OpSum | OpMean.

Inductive result (A : Type) : Type :=
| Ok (a : A)
| Err (e : error).
Arguments Ok {A} a.
Arguments Err {A} e.

Definition M (A : Type) : Type := (list op * result A)%type.

Definition ret {A} (a : A) : M A := ([], Ok a).
Definition raise {A} (e : error) : M A := ([], Err e).
Definition tick {A} (o : op) (a : A) : M A := ([o], Ok a).

Definition bind {A B} (m : M A) (f : A -> M B) : M B :=
  match m with
  | (t, Ok a) => let (t', r) := f a in (t ++ t', r)
  | (t, Err e) => (t, Err e)
  end.

Notation "x <- m ;; k" := (bind m (fun x => k))
  (at level 61, m at next level, right associativity).

Definition trace {A} (m : M A) : list op := fst m.
Definition value {A} (m : M A) : result A := snd m.

(** ** The loss *)

Record OrdinalSupConLoss : Type := mkLoss {
  temperature : R;
  contrast_mode : string;
  base_temperature : R
}.

(** Lines 35-39. *)
Definition flatten_features (features : tensor) : M tensor :=
  if (length (shape features) <? 3)%nat then raise ValueError_rank
  else if (3 <? length (shape features))%nat then tick OpView (view3 features)
  else ret features.

(** Lines 50-52, for [labels] already a column. *)
Definition label_mask (labels : matrix R) : matrix R :=
  emap float_of_bool (bcast2 0 0 req labels (transpose labels)).

Definition label_weights (labels : matrix R) : matrix R :=
  let labels_r := tile 2 1 labels in
  emap Rabs (bcast2 0 0 Rminus labels_r (transpose labels_r)).

(** Lines 42-54: the positive mask, and [weights] when it is assigned. *)
Definition select_mask (batch_size : nat) (labels mask : option tensor)
    : M (matrix R * option (matrix R)) :=
  match labels, mask with
  | Some _, Some _ => raise ValueError_labels_and_mask
  | None, None =>
      mask <- tick OpEye (eye batch_size batch_size) ;;
      ret (mask, None)
  | Some l, None =>
      labels <- tick OpView (view_col l) ;;
      if negb (nrows labels =? batch_size)%nat then raise ValueError_num_labels
      else
        lT <- tick OpTranspose (transpose labels) ;;
        eq <- tick OpEqual (bcast2 0 0 req labels lT) ;;
        mask <- tick OpFloat (emap float_of_bool eq) ;;
        labels_r <- tick OpTile (tile 2 1 labels) ;;
        lrT <- tick OpTranspose (transpose labels_r) ;;
        d <- tick OpSub (bcast2 0 0 Rminus labels_r lrT) ;;
        a <- tick OpAbs (emap Rabs d) ;;
        weights <- tick OpFloat a ;;
        ret (mask, Some weights)
  | None, Some m =>
      mask <- tick OpFloat (rows_of m) ;;
      ret (mask, None)
  end.

(** Lines 58-65. *)
Definition select_anchor (self : OrdinalSupConLoss) (features : tensor)
    (contrast_feature : matrix R) (contrast_count : nat) : M (matrix R * nat) :=
  if String.eqb (contrast_mode self) "one" then
    anchor_feature <- tick OpGetitem (getitem_view0 features) ;;
    ret (anchor_feature, 1%nat)
  else if String.eqb (contrast_mode self) "all" then
    ret (contrast_feature, contrast_count)
  else raise ValueError_unknown_mode.

(** [O.matmul]: the shape error is placed at the call that causes it; a
    runtime that dispatches its operations asynchronously may report it
    later. *)
Definition O_matmul (a b : matrix R) : M (matrix R) :=
  if (ncols a =? nrows b)%nat then tick OpMatmul (matmul a b)
  else raise ValueError_matmul_shape.

(** Lines 72-73; with [shift = false] the similarities are used as they are. *)
Definition stabilise (shift : bool) (anchor_dot_contrast : matrix R) : M (matrix R) :=
  if shift then
    logits_max <- tick OpMax (map (fun r => [row_max r]) anchor_dot_contrast) ;;
    tick OpSub (bcast2 0 0 Rminus anchor_dot_contrast logits_max)
  else ret anchor_dot_contrast.

(** Line 79. *)
Definition self_mask (n m : nat) : matrix R :=
  emap (fun e => e * (-1) + 1) (eye n m).

(** Line 85, for a given matrix of sums. *)
Definition log_prob_of (logits exp_logits_sum : matrix R) : matrix fval :=
  bcast2 (Fin 0) (Fin 0) fsub (emap Fin logits) (emap flog exp_logits_sum).

(** Line 88. *)
Definition mean_log_prob_pos_of (mask : matrix R) (log_prob : matrix fval)
    : list fval :=
  zipWith fdiv
    (map fsum (bcast2 (Fin 0) (Fin 0) fmul (emap Fin mask) log_prob))
    (map (fun r => Fin (rsum r)) mask).

Definition fmean (l : list fval) : fval :=
  fdiv (fsum l) (Fin (INR (length l))).

(** Lines 91-92. *)
Definition reduce_loss (self : OrdinalSupConLoss) (anchor_count batch_size : nat)
    (mean_log_prob_pos : list fval) : M fval :=
  if Req_dec_T (base_temperature self) 0 then raise ZeroDivisionError
  else
    loss <- tick OpMul
      (map (fmul (Fin (- (temperature self / base_temperature self))))
           mean_log_prob_pos) ;;
    if (length loss =? anchor_count * batch_size)%nat then
      loss <- tick OpView loss ;;
      tick OpMean (fmean loss)
    else raise ValueError_view.

(** Lines 76-92, from the logits on. *)
Definition reduce (self : OrdinalSupConLoss) (anchor_count contrast_count batch_size : nat)
    (logits mask : matrix R) (weights : option (matrix R)) : M fval :=
  mask <- tick OpTile (tile anchor_count contrast_count mask) ;;
  e <- tick OpEye (eye (nrows mask) (ncols mask)) ;;
  e <- tick OpMul (emap (fun x => x * (-1)) e) ;;
  logits_mask <- tick OpAdd (emap (fun x => x + 1) e) ;;
  mask <- tick OpMul (bcast2 0 0 Rmult mask logits_mask) ;;
  ex <- tick OpExp (emap exp logits) ;;
  exp_logits <- tick OpMul (bcast2 0 0 Rmult ex logits_mask) ;;
  exp_logits_sum <-
    match weights with
    | None => raise NameError_weights
    | Some w => O_matmul exp_logits w
    end ;;
  lg <- tick OpLog (emap flog exp_logits_sum) ;;
  log_prob <- tick OpSub (bcast2 (Fin 0) (Fin 0) fsub (emap Fin logits) lg) ;;
  prod <- tick OpMul (bcast2 (Fin 0) (Fin 0) fmul (emap Fin mask) log_prob) ;;
  num <- tick OpSum (map fsum prod) ;;
  den <- tick OpSum (map (fun r => Fin (rsum r)) mask) ;;
  mean_log_prob_pos <- tick OpDiv (zipWith fdiv num den) ;;
  reduce_loss self anchor_count batch_size mean_log_prob_pos.

Definition construct_gen (shift : bool) (self : OrdinalSupConLoss)
    (features : tensor) (labels mask : option tensor) : M fval :=
  features <- flatten_features features ;;
  let batch_size := dim 0 features in
  mw <- select_mask batch_size labels mask ;;
  let contrast_count := dim 1 features in
  views <- tick OpUnbind (unbind1 features) ;;
  contrast_feature <- tick OpCat (concat views) ;;
  ac <- select_anchor self features contrast_feature contrast_count ;;
  cT <- tick OpTranspose (transpose contrast_feature) ;;
  sim <- O_matmul (fst ac) cT ;;
  anchor_dot_contrast <- tick OpDiv (emap (fun x => x / temperature self) sim) ;;
  logits <- stabilise shift anchor_dot_contrast ;;
  reduce self (snd ac) contrast_count batch_size logits (fst mw) (snd mw).

(** The program. *)
Definition construct : OrdinalSupConLoss -> tensor -> option tensor ->
    option tensor -> M fval :=
  construct_gen true.

(** The same computation without the row-maximum shift of lines 72-73. *)
Definition construct_unshifted : OrdinalSupConLoss -> tensor -> option tensor ->
    option tensor -> M fval :=
  construct_gen false.

(** [never e m]: running [m] does not end in the exception [e]. *)
Definition never {A} (e : error) (m : M A) : Prop := value m <> Err e.

(** ** Valid inputs and derived quantities *)

(** The features as line 41 sees them. *)
Definition flattened (f : tensor) : tensor :=
  if (3 <? length (shape f))%nat then view3 f else f.

(** A features tensor of shape [B, V, ...] whose trailing dimensions hold
    [D] numbers per view, none of the three sizes being zero. *)
Definition valid_features (f : tensor) (B V D : nat) : Prop :=
  exists rest,
    shape f = B :: V :: rest /\ rest <> [] /\ prod_dims rest = D /\
    wf_tensor f /\ (1 <= B)%nat /\ (1 <= V)%nat /\ (1 <= D)%nat.

Definition valid_mode (self : OrdinalSupConLoss) : Prop :=
  contrast_mode self = "one"%string \/ contrast_mode self = "all"%string.

(** [tab n g] is the list [g 0; ...; g (n-1)]; [mk n m g] the matrix of
    the [g i j]. *)
Definition tab {A} (n : nat) (g : nat -> A) : list A := map g (seq 0 n).
Definition mk {A} (n m : nat) (g : nat -> nat -> A) : matrix A :=
  tab n (fun i => tab m (g i)).

(** Number of anchor blocks chosen by lines 58-65. *)
Definition anchor_blocks (self : OrdinalSupConLoss) (V : nat) : nat :=
  if String.eqb (contrast_mode self) "one" then 1%nat else V.

(** Lines 68-70 and 72-73 as functions of the two pools. *)
Definition similarities (T : R) (anchor_feature contrast_feature : matrix R)
    : matrix R :=
  emap (fun x => x / T) (matmul anchor_feature (transpose contrast_feature)).

Definition shifted (anchor_dot_contrast : matrix R) : matrix R :=
  bcast2 0 0 Rminus anchor_dot_contrast
    (map (fun r => [row_max r]) anchor_dot_contrast).

(** Line 83. *)
Definition exp_logits_of (logits : matrix R) (anchor_count contrast_count : nat)
    (mask : matrix R) : matrix R :=
  let tiled := tile anchor_count contrast_count mask in
  bcast2 0 0 Rmult (emap exp logits) (self_mask (nrows tiled) (ncols tiled)).

(** Lines 76-80: the tiled positive mask without its self-contrast entries. *)
Definition positive_mask (anchor_count contrast_count : nat) (mask : matrix R)
    : matrix R :=
  let tiled := tile anchor_count contrast_count mask in
  bcast2 0 0 Rmult tiled (self_mask (nrows tiled) (ncols tiled)).

(** Lines 88-92 on a given mask and matrix of log-probabilities. *)
Definition loss_of (self : OrdinalSupConLoss) (anchor_count batch_size : nat)
    (mask : matrix R) (log_prob : matrix fval) : M fval :=
  reduce_loss self anchor_count batch_size (mean_log_prob_pos_of mask log_prob).

(** Permutation of a tensor along its first axis: entry [p] of the result
    is entry [nth p sigma] of the argument. *)
Definition permute_batch (sigma : list nat) (t : tensor) : tensor :=
  let c := prod_dims (tl (shape t)) in
  mkTensor (shape t) (flat_map (fun b => slice (b * c) c (data t)) sigma).

(** ** The reference formula, entry by entry

    Written from the specification (sections 4.2 to 4.4): [x i] is vector
    [i] of the contrast pool and [lab i] its label, [Na] the number of
    anchors and [N] the size of the pool. *)
Section Reference.
Variables (T bT : R) (Na N : nat) (x : nat -> list R) (lab : nat -> R).

Definition ref_sim (i j : nat) : R := dot (x i) (x j) / T.
Definition ref_rowmax (i : nat) : R := row_max (tab N (ref_sim i)).
Definition ref_logit (i j : nat) : R := ref_sim i j - ref_rowmax i.
Definition ref_excl (i j : nat) : R := if Nat.eqb i j then 0 else 1.
Definition ref_weight (k j : nat) : R := Rabs (lab k - lab j).
Definition ref_den (i j : nat) : R :=
  rsum (tab N (fun k => exp (ref_logit i k) * ref_excl i k * ref_weight k j)).
Definition ref_log_prob (i j : nat) : fval :=
  fsub (Fin (ref_logit i j)) (flog (ref_den i j)).
Definition ref_pos (i j : nat) : R :=
  (if Req_dec_T (lab i) (lab j) then 1 else 0) * ref_excl i j.
Definition ref_mean_log_prob_pos (i : nat) : fval :=
  fdiv (fsum (tab N (fun j => fmul (Fin (ref_pos i j)) (ref_log_prob i j))))
       (Fin (rsum (tab N (ref_pos i)))).
Definition ref_loss : fval :=
  fdiv (fsum (tab Na (fun i => fmul (Fin (- (T / bT))) (ref_mean_log_prob_pos i))))
       (Fin (INR Na)).
End Reference.

(** Vector [i] of the pool of a [B, V, D] tensor: view [i / B] of sample
    [i mod B]; its label is the label of that sample. *)
Definition pool_vec (f : tensor) (i : nat) : list R :=
  frow f (i mod dim 0 f) (i / dim 0 f).
Definition pool_label (B : nat) (labels : list R) (i : nat) : R :=
  nth (i mod B) labels 0.

(** The reference loss of a two-view batch in mode "all". *)
Definition reference_loss_all (self : OrdinalSupConLoss)
    (features : tensor) (labels : tensor) : fval :=
  let B := dim 0 features in
  ref_loss (temperature self) (base_temperature self) (2 * B) (2 * B)
    (pool_vec (flattened features)) (pool_label B (data labels)).

(** ** What lines 76-92 compute, entry by entry

    For logits [L i j], a tiled positive mask [P i j] and weights [W k j],
    with [c] the factor of line 91. *)
Definition self_excl (i j : nat) : R := (if Nat.eqb i j then 1 else 0) * -1 + 1.

Section EntryWise.
Variables (c : R) (Na N : nat) (L P W : nat -> nat -> R).

Definition cf_den (i j : nat) : R :=
  rsum (tab N (fun k => exp (L i k) * self_excl i k * W k j)).
Definition cf_log_prob (i j : nat) : fval :=
  fsub (Fin (L i j)) (flog (cf_den i j)).
Definition cf_mean_log_prob_pos (i : nat) : fval :=
  fdiv (fsum (tab N (fun j => fmul (Fin (P i j)) (cf_log_prob i j))))
       (Fin (rsum (tab N (P i)))).
Definition cf_loss : fval :=
  fmean (tab Na (fun i => fmul (Fin c) (cf_mean_log_prob_pos i))).
End EntryWise.

(** The positive mask of lines 50 and 76-80, entry by entry. *)
Definition label_pos (B : nat) (labels : list R) (i j : nat) : R :=
  float_of_bool (req (nth (i mod B) labels 0) (nth (j mod B) labels 0))
  * self_excl i j.

(** A matrix of [n] rows of [m] entries. *)
Definition is_mat {A} (n m : nat) (x : matrix A) : Prop :=
  length x = n /\ Forall (fun r => length r = m) x.

(** The pool index that a permutation of the batch sends [i] to: same
    view, sample [nth (i mod B) sigma]. *)
Definition batch_reindex (B : nat) (sigma : list nat) (i : nat) : nat :=
  ((i / B) * B + nth (i mod B) sigma 0)%nat.

(** ** The constructor and transformations of the inputs *)

(** [__init__] (lines 14-19): the three hyperparameters, with their
    defaults 0.5, 'all' and 0.07. *)
Definition init (temperature : option R) (contrast_mode : option string)
    (base_temperature : option R) : OrdinalSupConLoss :=
  mkLoss (match temperature with Some t => t | None => 5 / 10 end)
         (match contrast_mode with Some m => m | None => "all"%string end)
         (match base_temperature with Some b => b | None => 7 / 100 end).

(** The same object with another [base_temperature]. *)
Definition with_base_temperature (self : OrdinalSupConLoss) (b : R)
    : OrdinalSupConLoss :=
  mkLoss (temperature self) (contrast_mode self) b.

(** A tensor with [g] applied to every entry. *)
Definition map_tensor (g : R -> R) (t : tensor) : tensor :=
  mkTensor (shape t) (map g (data t)).

(** A two-view features tensor with the two views of every sample
    exchanged. *)
Definition swap_views (t : tensor) : tensor :=
  let d := prod_dims (skipn 2 (shape t)) in
  mkTensor (shape t)
    (flat_map (fun b => slice ((b * 2 + 1) * d) d (data t)
                        ++ slice (b * 2 * d) d (data t))
              (seq 0 (dim 0 t))).

(** Where exchanging the views sends index [i] of a pool of [2 * B]. *)
Definition swap_index (B i : nat) : nat := ((i + B) mod (2 * B))%nat.

(** ** Example inputs *)

Definition demo_loss : OrdinalSupConLoss := mkLoss (1/2) "all" (7/100).
Definition demo_features : tensor := mkTensor [2; 2; 1]%nat [1; 2; 3; 4].
Definition demo_labels : tensor := mkTensor [2%nat] [0; 1].
Definition demo_labels_row : tensor := mkTensor [1; 2]%nat [0; 1].
Definition demo_mask : tensor := mkTensor [2; 2]%nat [1; 0; 0; 1].
Definition rank4_features : tensor := mkTensor [1; 2; 1; 1]%nat [1; 1].
Definition single_label : tensor := mkTensor [1%nat] [0].
Definition single_mask : tensor := mkTensor [1; 1]%nat [1].
Definition rank2_features : tensor := mkTensor [2; 2]%nat [1; 2; 3; 4].
Definition equal_labels : tensor := mkTensor [2%nat] [5; 5].

(** * Properties *)

(** ** The monad: projections of a bind *)

Lemma value_bind {A B} (m : M A) (f : A -> M B) :
  value (bind m f) =
  match value m with
  | Ok a => value (f a)
  | Err e => Err e
  end.
Proof.
  destruct m as [t [a|e]]; simpl; [destruct (f a); reflexivity | reflexivity].
Qed.

Lemma trace_bind_err {A B} (m : M A) (f : A -> M B) e :
  value m = Err e -> trace (bind m f) = trace m.
Proof.
  destruct m as [t [a|e']]; simpl; [discriminate | reflexivity].
Qed.

Lemma trace_bind_ok {A B} (m : M A) (f : A -> M B) a :
  value m = Ok a -> trace (bind m f) = trace m ++ trace (f a).
Proof.
  destruct m as [t [a'|e']]; simpl; [|discriminate].
  intros [= ->]. destruct (f a); reflexivity.
Qed.

Lemma value_tick {A} o (a : A) : value (tick o a) = Ok a.
Proof. reflexivity. Qed.

Lemma value_ret {A} (a : A) : value (ret a) = Ok a.
Proof. reflexivity. Qed.

Lemma never_bind {A B} e (m : M A) (f : A -> M B) :
  never e m -> (forall a, never e (f a)) -> never e (bind m f).
Proof.
  unfold never. intros Hm Hf. rewrite value_bind.
  destruct (value m) as [a|e0]; [apply Hf |].
  intros [= E]. apply Hm. rewrite E. reflexivity.
Qed.

Lemma never_tick {A} e o (a : A) : never e (tick o a).
Proof. unfold never; simpl; discriminate. Qed.

Lemma never_ret {A} e (a : A) : never e (ret a).
Proof. unfold never; simpl; discriminate. Qed.

Lemma never_raise {A} e e' : e <> e' -> never e (@raise A e').
Proof. unfold never; simpl; intros H [= E]; auto. Qed.

Lemma never_O_matmul e a b :
  e <> ValueError_matmul_shape -> never e (O_matmul a b).
Proof.
  intros He. unfold O_matmul. destruct (_ =? _)%nat.
  - apply never_tick.
  - apply never_raise; exact He.
Qed.

Lemma never_num_labels_reduce self ac cc bs logits mask w :
  never ValueError_num_labels (reduce self ac cc bs logits mask w).
Proof.
  unfold reduce, reduce_loss.
  do 7 (apply never_bind; [apply never_tick | intros ?]).
  apply never_bind.
  { destruct w; [apply never_O_matmul; discriminate | apply never_raise; discriminate]. }
  intros ?.
  do 6 (apply never_bind; [apply never_tick | intros ?]).
  destruct (Req_dec_T _ _); [apply never_raise; discriminate|].
  apply never_bind; [apply never_tick | intros ?].
  destruct (_ =? _)%nat; [| apply never_raise; discriminate].
  apply never_bind; [apply never_tick | intros ?]. apply never_tick.
Qed.

Lemma never_num_labels_tail shift self f3 mw :
  never ValueError_num_labels
    (views <- tick OpUnbind (unbind1 f3) ;;
     contrast_feature <- tick OpCat (concat views) ;;
     ac <- select_anchor self f3 contrast_feature (dim 1 f3) ;;
     cT <- tick OpTranspose (transpose contrast_feature) ;;
     sim <- O_matmul (fst ac) cT ;;
     anchor_dot_contrast <- tick OpDiv (emap (fun x => x / temperature self) sim) ;;
     logits <- stabilise shift anchor_dot_contrast ;;
     reduce self (snd ac) (dim 1 f3) (dim 0 f3) logits (fst mw) (snd mw)).
Proof.
  do 2 (apply never_bind; [apply never_tick | intros ?]).
  apply never_bind.
  { unfold select_anchor. destruct (String.eqb _ "one").
    - apply never_bind; [apply never_tick | intros ?; apply never_ret].
    - destruct (String.eqb _ "all"); [apply never_ret | apply never_raise; discriminate]. }
  intros ?. apply never_bind; [apply never_tick | intros ?].
  apply never_bind; [apply never_O_matmul; discriminate | intros ?].
  apply never_bind; [apply never_tick | intros ?].
  apply never_bind.
  { unfold stabilise. destruct shift; [|apply never_ret].
    apply never_bind; [apply never_tick | intros ?; apply never_tick]. }
  intros ?. apply never_num_labels_reduce.
Qed.

(** ** Lines 35-43: rank check, flattening, argument conflict *)

Lemma flatten_features_rank_ge3 (f : tensor) :
  (3 <= length (shape f))%nat ->
  flatten_features f =
    if (3 <? length (shape f))%nat then tick OpView (view3 f) else ret f.
Proof.
  intros H. unfold flatten_features.
  destruct (Nat.ltb_spec (length (shape f)) 3); [lia | reflexivity].
Qed.

Lemma dim0_view3 (f : tensor) :
  (3 <= length (shape f))%nat -> dim 0 (view3 f) = dim 0 f.
Proof.
  unfold dim, view3. destruct (shape f) as [|s0 [|s1 rest]]; simpl; try lia.
Qed.

Lemma value_flatten_features (f : tensor) :
  (3 <= length (shape f))%nat ->
  value (flatten_features f) = Ok (flattened f).
Proof.
  intros H. rewrite flatten_features_rank_ge3 by exact H. unfold flattened.
  destruct (3 <? _)%nat; reflexivity.
Qed.

Lemma dim0_flattened (f : tensor) :
  (3 <= length (shape f))%nat -> dim 0 (flattened f) = dim 0 f.
Proof.
  intros H. unfold flattened. destruct (3 <? _)%nat; [apply dim0_view3; exact H | reflexivity].
Qed.

(** C4 (as stated, refuted): on a rank-4 input with both [labels] and
    [mask], the flattening [view] of line 39 has executed on [features]
    when the conflict is raised. *)
Lemma C4_view_runs_before_conflict :
  (3 <= length (shape rank4_features))%nat /\
  value (construct demo_loss rank4_features (Some single_label) (Some single_mask))
    = Err ValueError_labels_and_mask /\
  trace (construct demo_loss rank4_features (Some single_label) (Some single_mask))
    = [OpView] /\
  trace (construct demo_loss rank4_features (Some single_label) (Some single_mask))
    <> [].
Proof.
  simpl. repeat split; try reflexivity; try lia. discriminate.
Qed.

(** C4 (amended): with both [labels] and [mask] supplied and features of
    rank at least 3, the call raises the ValueError of line 43; no tensor
    operation has run before it on a rank-3 input, and only the flattening
    [view] of line 39 on an input of higher rank. *)
Theorem C4_conflict_raised_first self features labels mask :
  (3 <= length (shape features))%nat ->
  value (construct self features (Some labels) (Some mask))
    = Err ValueError_labels_and_mask /\
  trace (construct self features (Some labels) (Some mask))
    = if (3 <? length (shape features))%nat then [OpView] else [].
Proof.
  intros H. unfold construct, construct_gen.
  rewrite flatten_features_rank_ge3 by exact H.
  destruct (3 <? length (shape features))%nat; split; reflexivity.
Qed.

Lemma C4_conflict_raised_first_witness :
  (3 <= length (shape demo_features))%nat /\
  value (construct demo_loss demo_features (Some demo_labels) (Some demo_mask))
    = Err ValueError_labels_and_mask.
Proof.
  split; [simpl; lia|].
  apply (C4_conflict_raised_first demo_loss demo_features demo_labels demo_mask).
  simpl; lia.
Defined.

(** ** Lines 46-49: the labels check *)

Lemma value_select_mask_labels (B : nat) (l : tensor) :
  value (select_mask B (Some l) None) =
  if (length (data l) =? B)%nat
  then Ok (label_mask (view_col l), Some (label_weights (view_col l)))
  else Err ValueError_num_labels.
Proof.
  unfold select_mask. rewrite value_bind. simpl value at 1. cbv beta iota.
  unfold nrows, view_col at 1. rewrite length_map.
  destruct (length (data l) =? B)%nat; reflexivity.
Qed.

(** C10: the labels check of lines 47-49 looks only at the number of
    elements of [labels], whatever its shape: on features of rank at least
    3 the call raises the shape error of line 49 exactly when that number
    differs from the batch size. *)
Theorem C10_labels_check_counts_elements self features labels :
  (3 <= length (shape features))%nat ->
  (value (construct self features (Some labels) None) = Err ValueError_num_labels
   <-> length (data labels) <> dim 0 features).
Proof.
  intros H. unfold construct, construct_gen.
  rewrite value_bind, value_flatten_features by exact H.
  rewrite value_bind, value_select_mask_labels.
  rewrite <- (dim0_flattened features H).
  destruct (Nat.eqb_spec (length (data labels)) (dim 0 (flattened features))) as [E|E].
  - split; [|intros C; contradiction].
    intros F. exfalso. revert F. apply never_num_labels_tail.
  - split; [intros _; exact E | reflexivity].
Qed.

Lemma C10_labels_check_counts_elements_witness :
  (3 <= length (shape demo_features))%nat /\
  (value (construct demo_loss demo_features (Some demo_labels_row) None)
     = Err ValueError_num_labels
   <-> length (data demo_labels_row) <> dim 0 demo_features).
Proof.
  split; [simpl; lia|].
  apply (C10_labels_check_counts_elements demo_loss demo_features demo_labels_row).
  simpl; lia.
Defined.

(** ** Tabulated lists and matrices *)

Lemma length_tab {A} n (g : nat -> A) : length (tab n g) = n.
Proof. unfold tab. rewrite length_map, length_seq. reflexivity. Qed.

Lemma nth_tab {A} n (g : nat -> A) d i :
  (i < n)%nat -> nth i (tab n g) d = g i.
Proof.
  intros H. unfold tab.
  rewrite (nth_indep _ d (g 0%nat)) by (rewrite length_map, length_seq; exact H).
  rewrite map_nth, seq_nth by exact H. reflexivity.
Qed.

Lemma tab_ext {A} n (g h : nat -> A) :
  (forall i, (i < n)%nat -> g i = h i) -> tab n g = tab n h.
Proof.
  intros H. unfold tab. apply map_ext_in. intros i Hi.
  apply in_seq in Hi. apply H. lia.
Qed.

Lemma map_tab {A B} (f : A -> B) n (g : nat -> A) :
  map f (tab n g) = tab n (fun i => f (g i)).
Proof. unfold tab. apply map_map. Qed.

Lemma tab_app {A} n m (g : nat -> A) :
  tab (n + m) g = tab n g ++ tab m (fun i => g (n + i)%nat).
Proof.
  apply (nth_ext _ _ (g 0%nat) (g 0%nat)).
  - rewrite length_app, !length_tab. reflexivity.
  - intros i Hi. rewrite length_tab in Hi. rewrite nth_tab by exact Hi.
    destruct (Nat.lt_ge_cases i n) as [L|L].
    + rewrite app_nth1 by (rewrite length_tab; exact L).
      rewrite nth_tab by exact L. reflexivity.
    + rewrite app_nth2 by (rewrite length_tab; exact L).
      rewrite length_tab, nth_tab by lia. f_equal. lia.
Qed.

Lemma list_eta {A} (d : A) n (r : list A) :
  length r = n -> r = tab n (fun i => nth i r d).
Proof.
  intros H. apply (nth_ext _ _ d d).
  - rewrite length_tab. exact H.
  - intros i Hi. rewrite nth_tab by lia. reflexivity.
Qed.

Lemma repeat_tab {A} (a : A) n : repeat a n = tab n (fun _ => a).
Proof.
  apply (nth_ext _ _ a a).
  - rewrite repeat_length, length_tab. reflexivity.
  - intros i Hi. rewrite repeat_length in Hi.
    rewrite nth_repeat, nth_tab by exact Hi. reflexivity.
Qed.

Lemma zipWith_map {A B C X} (f : A -> B -> C) (g : X -> A) (h : X -> B) l :
  zipWith f (map g l) (map h l) = map (fun i => f (g i) (h i)) l.
Proof. induction l as [|a l IH]; simpl; [reflexivity | rewrite IH; reflexivity]. Qed.

Lemma zipWith_tab {A B C} (f : A -> B -> C) n g h :
  zipWith f (tab n g) (tab n h) = tab n (fun i => f (g i) (h i)).
Proof. apply zipWith_map. Qed.

Lemma nrows_mk {A} n m (g : nat -> nat -> A) : nrows (mk n m g) = n.
Proof. apply length_tab. Qed.

Lemma nrows_tab {A} n (g : nat -> list A) : nrows (tab n g) = n.
Proof. apply length_tab. Qed.

Lemma ncols_tab {A} n (g : nat -> list A) :
  (1 <= n)%nat -> ncols (tab n g) = length (g 0%nat).
Proof.
  intros H. unfold ncols, tab. destruct n as [|n]; [lia | reflexivity].
Qed.

Lemma ncols_mk {A} n m (g : nat -> nat -> A) :
  (1 <= n)%nat -> ncols (mk n m g) = m.
Proof. intros H. unfold mk. rewrite ncols_tab by exact H. apply length_tab. Qed.

Lemma get_mk {A} (d : A) n m g i j :
  (i < n)%nat -> (j < m)%nat -> get d (mk n m g) i j = g i j.
Proof.
  intros Hi Hj. unfold get, mk.
  rewrite (nth_tab n _ [] i Hi). apply nth_tab. exact Hj.
Qed.

Lemma mk_ext {A} n m (g h : nat -> nat -> A) :
  (forall i j, (i < n)%nat -> (j < m)%nat -> g i j = h i j) ->
  mk n m g = mk n m h.
Proof.
  intros H. unfold mk. apply tab_ext. intros i Hi.
  apply tab_ext. intros j Hj. apply H; assumption.
Qed.

Lemma emap_mk {A B} (f : A -> B) n m g :
  emap f (mk n m g) = mk n m (fun i j => f (g i j)).
Proof.
  unfold emap, mk. rewrite map_tab. apply tab_ext. intros i _. apply map_tab.
Qed.

Lemma emap_emap {A B C} (f : A -> B) (g : B -> C) (m : matrix A) :
  emap g (emap f m) = emap (fun a => g (f a)) m.
Proof.
  unfold emap. rewrite map_map. apply map_ext. intros r. apply map_map.
Qed.

Lemma eye_mk n m : eye n m = mk n m (fun i j => if Nat.eqb i j then 1 else 0).
Proof. reflexivity. Qed.

(** Concatenation of [a] blocks of [p] entries. *)
Lemma concat_tab_tab {A} a p (g : nat -> nat -> A) :
  (1 <= p)%nat ->
  concat (tab a (fun v => tab p (g v))) = tab (a * p) (fun i => g (i / p)%nat (i mod p)%nat).
Proof.
  intros Hp. induction a as [|a IH]; [reflexivity|].
  replace (S a) with (a + 1)%nat by lia.
  rewrite tab_app, concat_app, IH. simpl tab at 2. simpl concat.
  rewrite app_nil_r.
  replace ((a + 1) * p)%nat with (a * p + p)%nat by lia.
  rewrite tab_app. f_equal. apply tab_ext. intros i Hi.
  replace (a + 0)%nat with a by lia.
  replace (a * p + i)%nat with (i + a * p)%nat by lia.
  rewrite Nat.div_add, Nat.Div0.mod_add by lia.
  rewrite Nat.div_small, Nat.mod_small by lia. reflexivity.
Qed.

Lemma concat_repeat_tab {A} c q (h : nat -> A) :
  (1 <= q)%nat ->
  concat (repeat (tab q h) c) = tab (c * q) (fun j => h (j mod q)%nat).
Proof.
  intros Hq. rewrite repeat_tab.
  rewrite (concat_tab_tab c q (fun _ => h) Hq). reflexivity.
Qed.

Lemma tile_mk {A} a c p q (g : nat -> nat -> A) :
  (1 <= p)%nat -> (1 <= q)%nat ->
  tile a c (mk p q g) = mk (a * p) (c * q) (fun i j => g (i mod p)%nat (j mod q)%nat).
Proof.
  intros Hp Hq. unfold tile, mk. rewrite map_tab.
  rewrite (tab_ext p _ (fun i => tab (c * q) (fun j => g i (j mod q)%nat)))
    by (intros i _; apply concat_repeat_tab; exact Hq).
  apply (concat_repeat_tab a p (fun i => tab (c * q) (fun j => g i (j mod q)%nat)) Hp).
Qed.

Lemma transpose_tab n m (r : nat -> list R) :
  (1 <= n)%nat -> length (r 0%nat) = m ->
  transpose (tab n r) = mk m n (fun j i => nth j (r i) 0).
Proof.
  intros Hn Hm. unfold transpose. rewrite ncols_tab, Hm by exact Hn.
  unfold mk. apply tab_ext. intros j _. apply map_tab.
Qed.

Lemma transpose_mk n m (g : nat -> nat -> R) :
  (1 <= n)%nat ->
  transpose (mk n m g) = mk m n (fun j i => g i j).
Proof.
  intros Hn. unfold mk at 1.
  rewrite (transpose_tab n m) by (try exact Hn; apply length_tab).
  apply mk_ext. intros j i Hj Hi. apply nth_tab. exact Hj.
Qed.

(** Elementwise operations on operands of one shape, and of a matrix with
    a column. *)
Lemma bdim_same n : bdim n n = n.
Proof. unfold bdim. destruct (Nat.eqb_spec n 1); congruence. Qed.

Lemma bget_mk {A} (d : A) n m g i j :
  (i < n)%nat -> (j < m)%nat -> bget d (mk n m g) i j = g i j.
Proof.
  intros Hi Hj. unfold bget. rewrite nrows_mk, ncols_mk by lia.
  destruct (Nat.eqb_spec n 1), (Nat.eqb_spec m 1);
    rewrite get_mk by lia; f_equal; lia.
Qed.

Lemma bcast2_mk {A B C} (da : A) (db : B) (f : A -> B -> C) n m g h :
  (1 <= n)%nat ->
  bcast2 da db f (mk n m g) (mk n m h) = mk n m (fun i j => f (g i j) (h i j)).
Proof.
  intros Hn. unfold bcast2. rewrite !nrows_mk, !ncols_mk, !bdim_same by exact Hn.
  apply mk_ext. intros i j Hi Hj. rewrite !bget_mk by assumption. reflexivity.
Qed.

Lemma bcast2_col {A B C} (da : A) (db : B) (f : A -> B -> C) n m g (c : nat -> B) :
  (1 <= n)%nat -> (1 <= m)%nat ->
  bcast2 da db f (mk n m g) (tab n (fun i => [c i]))
  = mk n m (fun i j => f (g i j) (c i)).
Proof.
  intros Hn Hm. unfold bcast2.
  rewrite nrows_mk, nrows_tab, ncols_mk, ncols_tab, bdim_same by exact Hn.
  simpl length. replace (bdim m 1) with m
    by (unfold bdim; destruct (Nat.eqb_spec m 1); congruence).
  apply mk_ext. intros i j Hi Hj. rewrite bget_mk by assumption. f_equal.
  unfold bget. rewrite nrows_tab, ncols_tab by exact Hn. simpl length.
  rewrite Nat.eqb_refl. unfold get.
  destruct (Nat.eqb_spec n 1) as [E|E].
  - rewrite (nth_tab n _ [] 0%nat) by lia. simpl. f_equal. lia.
  - rewrite (nth_tab n _ [] i) by lia. reflexivity.
Qed.

(** A column against a row: the outer operation of lines 50 and 52. *)
Lemma bcast2_outer {A B C} (da : A) (db : B) (f : A -> B -> C) n
    (c : nat -> A) (r : nat -> B) :
  (1 <= n)%nat ->
  bcast2 da db f (tab n (fun i => [c i])) (mk 1 n (fun _ j => r j))
  = mk n n (fun i j => f (c i) (r j)).
Proof.
  intros Hn. unfold bcast2.
  rewrite nrows_mk, nrows_tab, ncols_mk, ncols_tab by lia. simpl length.
  replace (bdim n 1) with n
    by (unfold bdim; destruct (Nat.eqb_spec n 1); congruence).
  replace (bdim 1 n) with n by reflexivity.
  apply mk_ext. intros i j Hi Hj. f_equal.
  - unfold bget. rewrite nrows_tab, ncols_tab by exact Hn. simpl length.
    rewrite Nat.eqb_refl. unfold get.
    destruct (Nat.eqb_spec n 1) as [E|E].
    + rewrite (nth_tab n _ [] 0%nat) by lia. simpl. f_equal. lia.
    + rewrite (nth_tab n _ [] i) by lia. reflexivity.
  - unfold bget. rewrite nrows_mk, ncols_mk by lia. rewrite Nat.eqb_refl.
    destruct (Nat.eqb_spec n 1) as [E|E]; rewrite get_mk by lia;
      [f_equal; lia | reflexivity].
Qed.

(** Matrix product, entry by entry. *)
Lemma matmul_mk n k m (g h : nat -> nat -> R) :
  (1 <= k)%nat ->
  matmul (mk n k g) (mk k m h)
  = mk n m (fun i j => rsum (tab k (fun t => g i t * h t j))).
Proof.
  intros Hk. unfold matmul. rewrite transpose_mk by exact Hk.
  unfold mk. rewrite map_tab. apply tab_ext. intros i _.
  rewrite map_tab. apply tab_ext. intros j _.
  unfold dot. rewrite zipWith_tab. reflexivity.
Qed.

(** Product with a transposed matrix of rows: all the dot products. *)
Lemma matmul_transpose_rows n m d (a r : nat -> list R) :
  (1 <= m)%nat -> (1 <= d)%nat -> (forall j, (j < m)%nat -> length (r j) = d) ->
  matmul (tab n a) (transpose (tab m r))
  = mk n m (fun i j => dot (a i) (r j)).
Proof.
  intros Hm Hd Hr. unfold matmul.
  rewrite (transpose_tab m d) by (try exact Hm; apply Hr; lia).
  rewrite transpose_mk by exact Hd.
  rewrite map_tab. unfold mk. apply tab_ext. intros i _.
  rewrite map_tab. apply tab_ext. intros j Hj. f_equal.
  symmetry. apply list_eta. apply Hr. exact Hj.
Qed.

(** ** The program, stage by stage *)

Lemma value_bind_tick {A B} o (a : A) (f : A -> M B) :
  value (bind (tick o a) f) = value (f a).
Proof. unfold bind, tick. destruct (f a); reflexivity. Qed.

Lemma value_bind_ret {A B} (a : A) (f : A -> M B) :
  value (bind (ret a) f) = value (f a).
Proof. unfold bind, ret. destruct (f a); reflexivity. Qed.

Lemma value_O_matmul a b :
  value (O_matmul a b) =
  if (ncols a =? nrows b)%nat then Ok (matmul a b) else Err ValueError_matmul_shape.
Proof. unfold O_matmul. destruct (_ =? _)%nat; reflexivity. Qed.

Lemma value_stabilise shift adc :
  value (stabilise shift adc) = Ok (if shift then shifted adc else adc).
Proof.
  unfold stabilise. destruct shift; [|reflexivity].
  rewrite value_bind_tick. reflexivity.
Qed.

Lemma value_reduce_no_weights self ac cc bs logits mask :
  value (reduce self ac cc bs logits mask None) = Err NameError_weights.
Proof.
  unfold reduce. rewrite !value_bind_tick. rewrite value_bind. reflexivity.
Qed.

Lemma value_reduce self ac cc bs logits mask w :
  value (reduce self ac cc bs logits mask (Some w)) =
  if (ncols (exp_logits_of logits ac cc mask) =? nrows w)%nat
  then value (loss_of self ac bs (positive_mask ac cc mask)
                (log_prob_of logits (matmul (exp_logits_of logits ac cc mask) w)))
  else Err ValueError_matmul_shape.
Proof.
  unfold reduce. rewrite !value_bind_tick. rewrite value_bind, value_O_matmul.
  rewrite !emap_emap.
  change (emap (fun a => a * -1 + 1)
            (eye (nrows (tile ac cc mask)) (ncols (tile ac cc mask))))
    with (self_mask (nrows (tile ac cc mask)) (ncols (tile ac cc mask))).
  fold (exp_logits_of logits ac cc mask).
  destruct (_ =? _)%nat; [|reflexivity].
  rewrite !value_bind_tick. reflexivity.
Qed.

Lemma value_select_anchor self f3 cf cc :
  value (select_anchor self f3 cf cc) =
  if String.eqb (contrast_mode self) "one" then Ok (getitem_view0 f3, 1%nat)
  else if String.eqb (contrast_mode self) "all" then Ok (cf, cc)
  else Err ValueError_unknown_mode.
Proof.
  unfold select_anchor. destruct (String.eqb _ "one").
  - rewrite value_bind_tick. reflexivity.
  - destruct (String.eqb _ "all"); reflexivity.
Qed.

(** The whole of [construct] after the rank check. *)
Lemma value_construct_gen shift self f labels mask :
  (3 <= length (shape f))%nat ->
  value (construct_gen shift self f labels mask) =
  let f3 := flattened f in
  match value (select_mask (dim 0 f3) labels mask) with
  | Err e => Err e
  | Ok mw =>
      let pool := concat (unbind1 f3) in
      match value (select_anchor self f3 pool (dim 1 f3)) with
      | Err e => Err e
      | Ok ac =>
          if (ncols (fst ac) =? nrows (transpose pool))%nat then
            let adc := similarities (temperature self) (fst ac) pool in
            value (reduce self (snd ac) (dim 1 f3) (dim 0 f3)
                     (if shift then shifted adc else adc) (fst mw) (snd mw))
          else Err ValueError_matmul_shape
      end
  end.
Proof.
  intros H. unfold construct_gen.
  rewrite value_bind, value_flatten_features by exact H.
  rewrite value_bind. cbv zeta.
  destruct (value (select_mask _ labels mask)) as [mw|e]; [|reflexivity].
  rewrite !value_bind_tick, value_bind.
  destruct (value (select_anchor _ _ _ _)) as [ac|e]; [|reflexivity].
  rewrite value_bind_tick, value_bind, value_O_matmul.
  destruct (_ =? _)%nat; [|reflexivity].
  rewrite value_bind_tick, value_bind, value_stabilise. reflexivity.
Qed.

(** ** The contrast pool of valid features *)

Lemma valid_features_rank f B V D :
  valid_features f B V D -> (3 <= length (shape f))%nat.
Proof.
  intros (rest & Hs & Hr & _). rewrite Hs. destruct rest; [congruence | simpl; lia].
Qed.

Lemma flattened_valid f B V D :
  valid_features f B V D -> flattened f = mkTensor [B; V; D] (data f).
Proof.
  intros (rest & Hs & Hr & Hp & _). unfold flattened, view3. rewrite Hs.
  destruct rest as [|d [|d' rest]]; [congruence | |].
  - simpl. destruct f as [sh dat]. simpl in *. subst sh. f_equal.
    rewrite <- Hp. simpl. repeat f_equal. lia.
  - simpl. rewrite <- Hp. reflexivity.
Qed.

Lemma valid_features_length f B V D :
  valid_features f B V D -> length (data f) = (B * V * D)%nat.
Proof.
  intros (rest & Hs & Hr & Hp & Hw & _). unfold wf_tensor in Hw.
  rewrite Hw, Hs. simpl. rewrite Hp. lia.
Qed.

Lemma length_slice {A} off len (l : list A) :
  (off + len <= length l)%nat -> length (slice off len l) = len.
Proof.
  intros H. unfold slice. rewrite firstn_length_le; [reflexivity|].
  rewrite length_skipn. lia.
Qed.

Section Pool.
Variables (B V D : nat) (dat : list R).
Hypothesis HB : (1 <= B)%nat.
Hypothesis HV : (1 <= V)%nat.
Hypothesis HD : (1 <= D)%nat.
Hypothesis Hlen : length dat = (B * V * D)%nat.

Let f3 := mkTensor [B; V; D] dat.

Lemma length_frow b v :
  (b < B)%nat -> (v < V)%nat -> length (frow f3 b v) = D.
Proof.
  intros Hb Hv. unfold frow, dim. simpl. apply length_slice. rewrite Hlen.
  assert (b * V + v + 1 <= B * V)%nat by nia.
  replace ((b * V + v) * D + D)%nat with ((b * V + v + 1) * D)%nat by lia.
  apply Nat.mul_le_mono_r. assumption.
Qed.

Lemma length_pool_vec i : (i < V * B)%nat -> length (pool_vec f3 i) = D.
Proof.
  intros Hi. unfold pool_vec. change (dim 0 f3) with B. apply length_frow.
  - apply Nat.mod_upper_bound. lia.
  - apply Nat.Div0.div_lt_upper_bound. lia.
Qed.

Lemma pool_tab : concat (unbind1 f3) = tab (V * B) (pool_vec f3).
Proof.
  exact (concat_tab_tab V B (fun v b => frow f3 b v) HB).
Qed.

Lemma view0_tab : getitem_view0 f3 = tab B (pool_vec f3).
Proof.
  change (getitem_view0 f3) with (tab B (fun b => frow f3 b 0)).
  apply tab_ext. intros b Hb. unfold pool_vec. change (dim 0 f3) with B.
  rewrite Nat.mod_small, Nat.div_small by exact Hb. reflexivity.
Qed.

(** Lines 68-70 on [Na] anchors taken from the head of the pool. *)
Lemma similarities_tab T Na :
  similarities T (tab Na (pool_vec f3)) (tab (V * B) (pool_vec f3))
  = mk Na (V * B) (ref_sim T (pool_vec f3)).
Proof.
  unfold similarities.
  rewrite (matmul_transpose_rows Na (V * B) D) by (try nia; apply length_pool_vec).
  rewrite emap_mk. reflexivity.
Qed.

Lemma shifted_mk T Na :
  (1 <= Na)%nat ->
  shifted (mk Na (V * B) (ref_sim T (pool_vec f3)))
  = mk Na (V * B) (ref_logit T (V * B) (pool_vec f3)).
Proof.
  intros HNa. unfold shifted. unfold mk at 2. rewrite map_tab.
  rewrite (bcast2_col 0 0 Rminus Na (V * B) _
             (fun i => row_max (tab (V * B) (ref_sim T (pool_vec f3) i))))
    by nia.
  reflexivity.
Qed.

Lemma matmul_check_pool Na :
  (1 <= Na)%nat -> (Na <= V * B)%nat ->
  (ncols (tab Na (pool_vec f3)) =? nrows (transpose (tab (V * B) (pool_vec f3))))%nat
  = true.
Proof.
  intros H1 H2. rewrite ncols_tab by exact H1.
  rewrite (transpose_tab (V * B) D) by (try nia; apply length_pool_vec; nia).
  rewrite nrows_mk, length_pool_vec by nia. apply Nat.eqb_refl.
Qed.
End Pool.

(** ** Lines 56-70 on valid features *)

Lemma value_select_anchor_valid self B V D dat :
  (1 <= B)%nat -> valid_mode self ->
  value (select_anchor self (mkTensor [B; V; D] dat)
           (tab (V * B) (pool_vec (mkTensor [B; V; D] dat))) V)
  = Ok (tab (anchor_blocks self V * B) (pool_vec (mkTensor [B; V; D] dat)),
        anchor_blocks self V).
Proof.
  intros HB Hm. rewrite value_select_anchor. unfold anchor_blocks.
  destruct Hm as [E|E]; rewrite E; simpl String.eqb; cbv iota.
  - rewrite (view0_tab B V D dat). rewrite Nat.mul_1_l. reflexivity.
  - reflexivity.
Qed.

Lemma anchor_blocks_bounds self V :
  (1 <= V)%nat -> (1 <= anchor_blocks self V <= V)%nat.
Proof. intros H. unfold anchor_blocks. destruct (String.eqb _ _); lia. Qed.

(** [construct] on valid features, once the mask stage has succeeded. *)
Lemma value_construct_gen_valid shift self f labels mask B V D mw :
  valid_features f B V D -> valid_mode self ->
  value (select_mask B labels mask) = Ok mw ->
  value (construct_gen shift self f labels mask) =
  let x := pool_vec (mkTensor [B; V; D] (data f)) in
  let Na := (anchor_blocks self V * B)%nat in
  let adc := mk Na (V * B) (ref_sim (temperature self) x) in
  value (reduce self (anchor_blocks self V) V B
           (if shift then mk Na (V * B) (ref_logit (temperature self) (V * B) x)
            else adc)
           (fst mw) (snd mw)).
Proof.
  intros Hf Hm Hs.
  pose proof (valid_features_length _ _ _ _ Hf) as Hlen.
  pose proof (valid_features_rank _ _ _ _ Hf) as Hrk.
  pose proof (flattened_valid _ _ _ _ Hf) as Hfl.
  destruct Hf as (rest & _ & _ & _ & _ & HB & HV & HD).
  pose proof (anchor_blocks_bounds self V HV) as Hab.
  rewrite value_construct_gen by exact Hrk. rewrite Hfl. cbv zeta.
  change (dim 0 (mkTensor [B; V; D] (data f))) with B.
  change (dim 1 (mkTensor [B; V; D] (data f))) with V.
  rewrite Hs. rewrite (pool_tab B V D (data f) HB).
  rewrite (value_select_anchor_valid self B V D (data f) HB Hm).
  cbn [fst snd].
  rewrite (matmul_check_pool B V D (data f) HB HV HD Hlen) by nia.
  rewrite (similarities_tab B V D (data f) HB HV HD Hlen).
  destruct shift; [|reflexivity].
  rewrite (shifted_mk B V D (data f)) by nia. reflexivity.
Qed.

Lemma construct_without_weights self f labels mask B V D m :
  valid_features f B V D -> valid_mode self ->
  value (select_mask B labels mask) = Ok (m, None) ->
  value (construct self f labels mask) = Err NameError_weights.
Proof.
  intros Hf Hm Hs. unfold construct.
  rewrite (value_construct_gen_valid true self f labels mask B V D (m, None) Hf Hm Hs).
  apply value_reduce_no_weights.
Qed.

Lemma valid_demo_features : valid_features demo_features 2 2 1.
Proof.
  exists [1%nat]. unfold wf_tensor. simpl.
  repeat split; try lia; try reflexivity. discriminate.
Qed.

Lemma valid_mode_demo : valid_mode demo_loss.
Proof. right. reflexivity. Qed.

(** C2 (the code at a failing input): with neither [labels] nor [mask] the
    identity mask of line 45 is built, but [weights] is never assigned, and
    the call ends in the NameError of line 84 instead of returning the
    unsupervised loss. *)
Theorem C2_no_labels_no_mask_raises :
  value (construct demo_loss demo_features None None) = Err NameError_weights.
Proof.
  apply (construct_without_weights demo_loss demo_features None None 2 2 1 (eye 2 2)).
  - exact valid_demo_features.
  - exact valid_mode_demo.
  - reflexivity.
Qed.

(** C3: with a [B, B] mask and no labels, on valid features, the call does
    not return: [weights] is not assigned on that path, and the matrix
    product of line 84 raises the NameError. *)
Theorem C3_mask_only_raises self f m B V D :
  valid_features f B V D -> valid_mode self ->
  shape m = [B; B] -> wf_tensor m ->
  value (construct self f None (Some m)) = Err NameError_weights.
Proof.
  intros Hf Hm _ _.
  apply (construct_without_weights self f None (Some m) B V D (rows_of m) Hf Hm).
  reflexivity.
Qed.

Lemma C3_mask_only_raises_witness :
  value (construct demo_loss demo_features None (Some demo_mask))
  = Err NameError_weights.
Proof.
  apply (C3_mask_only_raises demo_loss demo_features demo_mask 2 2 1).
  - exact valid_demo_features.
  - exact valid_mode_demo.
  - reflexivity.
  - reflexivity.
Defined.

(** ** Lines 46-52 and 76-80: the masks built from labels *)

Lemma transpose_col n (c : nat -> R) :
  (1 <= n)%nat ->
  transpose (tab n (fun i => [c i])) = mk 1 n (fun _ j => c j).
Proof.
  intros Hn. rewrite (transpose_tab n 1) by (try exact Hn; reflexivity).
  apply mk_ext. intros j i Hj _. replace j with 0%nat by lia. reflexivity.
Qed.

Lemma view_col_tab l B :
  length (data l) = B ->
  view_col l = tab B (fun i => [nth i (data l) 0]).
Proof.
  intros H. unfold view_col. rewrite (list_eta 0 B (data l) H) at 1.
  apply map_tab.
Qed.

Lemma label_mask_mk l B :
  length (data l) = B -> (1 <= B)%nat ->
  label_mask (view_col l)
  = mk B B (fun i j => float_of_bool (req (nth i (data l) 0) (nth j (data l) 0))).
Proof.
  intros H HB. unfold label_mask. rewrite (view_col_tab l B H).
  rewrite transpose_col by exact HB.
  rewrite (bcast2_outer 0 0 req B (fun i => nth i (data l) 0)
             (fun j => nth j (data l) 0) HB).
  apply emap_mk.
Qed.

Lemma tab_singletons {A} n (c : nat -> A) :
  tab n (fun i => [c i]) = mk n 1 (fun i _ => c i).
Proof. reflexivity. Qed.

Lemma label_weights_mk l B :
  length (data l) = B -> (1 <= B)%nat ->
  label_weights (view_col l)
  = mk (2 * B) (2 * B) (ref_weight (pool_label B (data l))).
Proof.
  intros H HB. unfold label_weights. rewrite (view_col_tab l B H).
  rewrite tab_singletons, tile_mk by lia.
  change (mk (2 * B) (1 * 1) (fun i _ => nth (i mod B) (data l) 0))
    with (tab (2 * B) (fun i => [pool_label B (data l) i])).
  rewrite transpose_col by lia.
  rewrite (bcast2_outer 0 0 Rminus (2 * B) (pool_label B (data l))
             (pool_label B (data l))) by lia.
  apply emap_mk.
Qed.

Lemma self_mask_mk n m :
  self_mask n m = mk n m (fun i j => (if Nat.eqb i j then 1 else 0) * -1 + 1).
Proof. unfold self_mask. rewrite eye_mk. apply emap_mk. Qed.

Lemma positive_mask_mk ac cc B g :
  (1 <= ac)%nat -> (1 <= B)%nat ->
  positive_mask ac cc (mk B B g)
  = mk (ac * B) (cc * B)
      (fun i j => g (i mod B)%nat (j mod B)%nat
                  * ((if Nat.eqb i j then 1 else 0) * -1 + 1)).
Proof.
  intros Ha HB. unfold positive_mask. rewrite tile_mk by exact HB.
  rewrite nrows_mk, ncols_mk by nia. rewrite self_mask_mk.
  apply bcast2_mk. nia.
Qed.





(** ** Lines 76-92 on tabulated operands *)

Lemma mean_log_prob_pos_of_mk n m Q LP :
  (1 <= n)%nat ->
  mean_log_prob_pos_of (mk n m Q) (mk n m LP)
  = tab n (fun i =>
      fdiv (fsum (tab m (fun j => fmul (Fin (Q i j)) (LP i j))))
           (Fin (rsum (tab m (Q i))))).
Proof.
  intros Hn. unfold mean_log_prob_pos_of. rewrite emap_mk.
  rewrite bcast2_mk by exact Hn.
  unfold mk. rewrite !map_tab. apply zipWith_tab.
Qed.

Lemma log_prob_of_mk n m L S :
  (1 <= n)%nat ->
  log_prob_of (mk n m L) (mk n m S)
  = mk n m (fun i j => fsub (Fin (L i j)) (flog (S i j))).
Proof.
  intros Hn. unfold log_prob_of. rewrite !emap_mk. apply bcast2_mk. exact Hn.
Qed.

Lemma value_reduce_loss_tab self ac bs n ml :
  n = (ac * bs)%nat ->
  value (reduce_loss self ac bs (tab n ml)) =
  if Req_dec_T (base_temperature self) 0 then Err ZeroDivisionError
  else Ok (fmean (tab n (fun i =>
             fmul (Fin (- (temperature self / base_temperature self))) (ml i)))).
Proof.
  intros Hn. unfold reduce_loss. destruct (Req_dec_T _ _); [reflexivity|].
  rewrite value_bind_tick, map_tab, length_tab. rewrite <- Hn.
  rewrite Nat.eqb_refl, value_bind_tick. reflexivity.
Qed.

Section ReduceTab.
Variables (self : OrdinalSupConLoss) (ab B : nat).
Variables (L g W : nat -> nat -> R).
Hypothesis Hab : (1 <= ab)%nat.
Hypothesis HB : (1 <= B)%nat.

Let Na := (ab * B)%nat.
Let N := (2 * B)%nat.
Let P := fun i j => g (i mod B)%nat (j mod B)%nat * self_excl i j.

Lemma exp_logits_of_mk :
  exp_logits_of (mk Na N L) ab 2 (mk B B g)
  = mk Na N (fun i k => exp (L i k) * self_excl i k).
Proof.
  unfold exp_logits_of. rewrite tile_mk by exact HB.
  rewrite nrows_mk, ncols_mk by nia. rewrite self_mask_mk, emap_mk.
  apply bcast2_mk. unfold Na. nia.
Qed.

Lemma value_reduce_mk :
  value (reduce self ab 2 B (mk Na N L) (mk B B g) (Some (mk N N W))) =
  if Req_dec_T (base_temperature self) 0 then Err ZeroDivisionError
  else Ok (cf_loss (- (temperature self / base_temperature self)) Na N L P W).
Proof.
  rewrite value_reduce, exp_logits_of_mk.
  rewrite ncols_mk, nrows_mk, Nat.eqb_refl by (unfold Na; nia).
  rewrite matmul_mk by (unfold N; lia).
  rewrite positive_mask_mk by assumption.
  rewrite log_prob_of_mk by (unfold Na; nia). unfold loss_of.
  fold Na N. rewrite mean_log_prob_pos_of_mk by (unfold Na; nia).
  apply value_reduce_loss_tab. reflexivity.
Qed.
End ReduceTab.

(** ** The labels path on valid two-view features *)

Lemma self_excl_ref i j : self_excl i j = ref_excl i j.
Proof. unfold self_excl, ref_excl. destruct (Nat.eqb i j); lra. Qed.

Lemma float_req a b : float_of_bool (req a b) = if Req_dec_T a b then 1 else 0.
Proof. unfold req. destruct (Req_dec_T a b); reflexivity. Qed.

Lemma value_construct_labels shift self f l B D :
  valid_features f B 2 D -> valid_mode self -> length (data l) = B ->
  value (construct_gen shift self f (Some l) None) =
  let x := pool_vec (mkTensor [B; 2; D]%nat (data f)) in
  if Req_dec_T (base_temperature self) 0 then Err ZeroDivisionError
  else Ok (cf_loss (- (temperature self / base_temperature self))
             (anchor_blocks self 2 * B) (2 * B)
             (if shift then ref_logit (temperature self) (2 * B) x
              else ref_sim (temperature self) x)
             (label_pos B (data l))
             (ref_weight (pool_label B (data l)))).
Proof.
  intros Hf Hm Hl.
  assert (HB : (1 <= B)%nat) by (destruct Hf as (? & _ & _ & _ & _ & H & _); exact H).
  pose proof (anchor_blocks_bounds self 2 (le_S _ _ (le_n 1))) as Hab.
  rewrite (value_construct_gen_valid shift self f (Some l) None B 2 D
             (label_mask (view_col l), Some (label_weights (view_col l))) Hf Hm)
    by (rewrite value_select_mask_labels, Hl, Nat.eqb_refl; reflexivity).
  cbv zeta. cbn [fst snd].
  rewrite (label_mask_mk l B Hl HB), (label_weights_mk l B Hl HB).
  destruct shift;
    rewrite (value_reduce_mk self (anchor_blocks self 2) B _ _ _ (proj1 Hab) HB);
    reflexivity.
Qed.

Lemma cf_den_ref T N x lab i j :
  cf_den N (ref_logit T N x) (ref_weight lab) i j = ref_den T N x lab i j.
Proof.
  unfold cf_den, ref_den. f_equal. apply tab_ext. intros k _.
  rewrite self_excl_ref. reflexivity.
Qed.

Lemma cf_loss_ref T bT Na B x labels :
  cf_loss (- (T / bT)) Na (2 * B) (ref_logit T (2 * B) x)
    (label_pos B labels) (ref_weight (pool_label B labels))
  = ref_loss T bT Na (2 * B) x (pool_label B labels).
Proof.
  unfold cf_loss, ref_loss, fmean. rewrite length_tab. f_equal. f_equal.
  apply tab_ext. intros i _. f_equal.
  unfold cf_mean_log_prob_pos, ref_mean_log_prob_pos.
  assert (HP : forall j, label_pos B labels i j
                         = ref_pos (pool_label B labels) i j).
  { intros j. unfold label_pos, ref_pos, pool_label.
    rewrite float_req, self_excl_ref. reflexivity. }
  f_equal.
  - f_equal. apply tab_ext. intros j _. rewrite HP. f_equal.
    unfold cf_log_prob, ref_log_prob. rewrite cf_den_ref. reflexivity.
  - f_equal. f_equal. apply tab_ext. intros j _. apply HP.
Qed.

Lemma dim0_valid f B V D : valid_features f B V D -> dim 0 f = B.
Proof. intros (rest & Hs & _). unfold dim. rewrite Hs. reflexivity. Qed.

(** C1: on features of shape [B, 2, D], with [B] labels, no mask and mode
    "all", the call returns the reference formula: the mean over the 2B
    anchors of -(temperature / base_temperature) times the mean
    log-probability of the positives, the log-probability of (i, j) being
    the shifted logit minus the logarithm of entry (i, j) of the product of
    the self-excluded exponentials with the weights
    |labels[k mod B] - labels[j mod B]|. *)
Theorem C1_labels_all_matches_reference self f l B D :
  valid_features f B 2 D -> shape f = [B; 2; D]%nat ->
  length (data l) = B ->
  contrast_mode self = "all"%string ->
  temperature self <> 0 -> base_temperature self <> 0 ->
  value (construct self f (Some l) None) = Ok (reference_loss_all self f l).
Proof.
  intros Hf _ Hl Hmode _ HbT. unfold construct.
  rewrite (value_construct_labels true self f l B D Hf (or_intror Hmode) Hl).
  cbv zeta. destruct (Req_dec_T _ _) as [E|_]; [contradiction|].
  unfold reference_loss_all.
  rewrite (flattened_valid f B 2 D Hf), (dim0_valid f B 2 D Hf).
  unfold anchor_blocks. rewrite Hmode. simpl String.eqb. cbv iota.
  rewrite cf_loss_ref. reflexivity.
Qed.

Lemma C1_labels_all_matches_reference_witness :
  value (construct demo_loss demo_features (Some demo_labels) None)
  = Ok (reference_loss_all demo_loss demo_features demo_labels).
Proof.
  apply (C1_labels_all_matches_reference demo_loss demo_features demo_labels 2 1).
  - exact valid_demo_features.
  - reflexivity.
  - reflexivity.
  - reflexivity.
  - unfold demo_loss; simpl; lra.
  - unfold demo_loss; simpl; lra.
Defined.

(** ** Lines 56-65: the anchor pool *)

Lemma value_construct_unknown_mode shift self f labels mask mw :
  (3 <= length (shape f))%nat ->
  contrast_mode self <> "one"%string -> contrast_mode self <> "all"%string ->
  value (select_mask (dim 0 (flattened f)) labels mask) = Ok mw ->
  value (construct_gen shift self f labels mask) = Err ValueError_unknown_mode.
Proof.
  intros Hrk H1 H2 Hs. rewrite value_construct_gen by exact Hrk. cbv zeta.
  rewrite Hs, value_select_anchor.
  apply String.eqb_neq in H1, H2. rewrite H1, H2. reflexivity.
Qed.



(** ** Lines 72-73: the row shift cancels *)

Lemma rsum_scale {X} a (g : X -> R) l :
  rsum (map (fun k => a * g k) l) = a * rsum (map g l).
Proof.
  induction l as [|k l IH]; simpl; [lra | rewrite IH; lra].
Qed.

Lemma fsub_flog_shift a m s :
  fsub (Fin (a - m)) (flog (exp (- m) * s)) = fsub (Fin a) (flog s).
Proof.
  pose proof (exp_pos (- m)) as He. unfold flog.
  destruct (Rlt_dec 0 s) as [Hs|Hs].
  - destruct (Rlt_dec 0 (exp (- m) * s)) as [Hp|Hp].
    + rewrite ln_mult, ln_exp by assumption. simpl. f_equal. lra.
    + exfalso. apply Hp. apply Rmult_lt_0_compat; assumption.
  - destruct (Rlt_dec 0 (exp (- m) * s)) as [Hp|Hp].
    + exfalso. apply Hs. nra.
    + destruct (Req_dec_T s 0) as [E|E].
      * destruct (Req_dec_T (exp (- m) * s) 0) as [E'|E']; [reflexivity|].
        exfalso. apply E'. rewrite E. lra.
      * destruct (Req_dec_T (exp (- m) * s) 0) as [E'|E']; [|reflexivity].
        exfalso. apply E. nra.
Qed.

Lemma cf_den_shift N L W (m : nat -> R) i j :
  cf_den N (fun i k => L i k - m i) W i j = exp (- m i) * cf_den N L W i j.
Proof.
  unfold cf_den, tab. rewrite <- rsum_scale. f_equal. apply map_ext.
  intros k. unfold Rminus. rewrite exp_plus. lra.
Qed.

Lemma cf_loss_shift c Na N L P W (m : nat -> R) :
  cf_loss c Na N (fun i k => L i k - m i) P W = cf_loss c Na N L P W.
Proof.
  unfold cf_loss. f_equal. apply tab_ext. intros i _. f_equal.
  unfold cf_mean_log_prob_pos. f_equal. f_equal. apply tab_ext. intros j _.
  f_equal. unfold cf_log_prob. rewrite cf_den_shift. apply fsub_flog_shift.
Qed.

(** C6: on valid two-view features with [B] labels, the loss computed with
    the row-maximum shift of lines 72-73 equals the loss computed from the
    unshifted similarities (same value, or same exception). *)
Theorem C6_row_max_shift_cancels self f l B D :
  valid_features f B 2 D -> length (data l) = B ->
  temperature self <> 0 ->
  value (construct self f (Some l) None)
  = value (construct_unshifted self f (Some l) None).
Proof.
  intros Hf Hl _. unfold construct, construct_unshifted.
  destruct (String.eqb_spec (contrast_mode self) "one") as [E1|E1];
    [| destruct (String.eqb_spec (contrast_mode self) "all") as [E2|E2]].
  - rewrite !(value_construct_labels _ self f l B D Hf (or_introl E1) Hl).
    cbv zeta. destruct (Req_dec_T _ _); [reflexivity|]. f_equal.
    apply (cf_loss_shift _ _ _ (ref_sim (temperature self) _)).
  - rewrite !(value_construct_labels _ self f l B D Hf (or_intror E2) Hl).
    cbv zeta. destruct (Req_dec_T _ _); [reflexivity|]. f_equal.
    apply (cf_loss_shift _ _ _ (ref_sim (temperature self) _)).
  - pose proof (valid_features_rank f B 2 D Hf) as Hrk.
    assert (Hs : value (select_mask (dim 0 (flattened f)) (Some l) None)
                 = Ok (label_mask (view_col l), Some (label_weights (view_col l)))).
    { rewrite value_select_mask_labels, (flattened_valid f B 2 D Hf).
      change (dim 0 _) with B. rewrite Hl, Nat.eqb_refl. reflexivity. }
    rewrite !(value_construct_unknown_mode _ self f (Some l) None _ Hrk E1 E2 Hs).
    reflexivity.
Qed.

Lemma C6_row_max_shift_cancels_witness :
  value (construct demo_loss demo_features (Some demo_labels) None)
  = value (construct_unshifted demo_loss demo_features (Some demo_labels) None).
Proof.
  apply (C6_row_max_shift_cancels demo_loss demo_features demo_labels 2 1).
  - exact valid_demo_features.
  - reflexivity.
  - unfold demo_loss; simpl; lra.
Defined.

(** ** Line 88: rows without positives, and infinite log-probabilities *)

Lemma mat_eta {A} (d : A) n m (x : matrix A) :
  is_mat n m x -> x = mk n m (get d x).
Proof.
  intros [Hn Hr]. unfold mk. rewrite (list_eta [] n x Hn) at 1.
  apply tab_ext. intros i Hi. apply list_eta.
  rewrite Forall_forall in Hr. apply Hr. apply nth_In. lia.
Qed.

Lemma fadd_NaN_r a : fadd a NaN = NaN.
Proof. destruct a; reflexivity. Qed.

Lemma fsum_NaN l : In NaN l -> fsum l = NaN.
Proof.
  induction l as [|a l IH]; simpl; [contradiction|].
  intros [E|H]; [subst a; reflexivity | rewrite (IH H); apply fadd_NaN_r].
Qed.

Lemma fsum_zero_or_NaN l :
  (forall a, In a l -> a = Fin 0 \/ a = NaN) -> fsum l = Fin 0 \/ fsum l = NaN.
Proof.
  induction l as [|a l IH]; simpl; intros H; [left; reflexivity|].
  destruct (H a (or_introl eq_refl)) as [E|E]; subst a; [|right; reflexivity].
  destruct IH as [E|E]; [intros b Hb; apply H; right; exact Hb | |];
    rewrite E; simpl; [left; f_equal; lra | right; reflexivity].
Qed.

Lemma inf_scaled_0 pos : inf_scaled pos 0 = NaN.
Proof.
  unfold inf_scaled. destruct (Rlt_dec 0 0) as [H|_]; [lra|].
  destruct (Rlt_dec 0 0) as [H|_]; [lra | reflexivity].
Qed.

Lemma fmul_zero a : fmul (Fin 0) a = Fin 0 \/ fmul (Fin 0) a = NaN.
Proof.
  destruct a; simpl; rewrite ?inf_scaled_0; auto. left. f_equal. lra.
Qed.

Lemma fdiv_by_zero a : a = Fin 0 \/ a = NaN -> fdiv a (Fin 0) = NaN.
Proof.
  intros [E|E]; subst a; simpl; [|reflexivity].
  destruct (Req_dec_T 0 0) as [_|H]; [apply inf_scaled_0 | contradiction].
Qed.

Lemma rsum_nonneg l : Forall (fun x => 0 <= x) l -> 0 <= rsum l.
Proof.
  induction 1 as [|x l Hx _ IH]; simpl; lra.
Qed.

Lemma rsum_zero_all_zero l :
  Forall (fun x => 0 <= x) l -> rsum l = 0 -> Forall (fun x => x = 0) l.
Proof.
  induction 1 as [|x l Hx Hl IH]; simpl; intros H; constructor.
  - pose proof (rsum_nonneg l Hl). lra.
  - apply IH. pose proof (rsum_nonneg l Hl). lra.
Qed.

Lemma fsum_finite l : Forall is_finite l -> is_finite (fsum l).
Proof.
  induction 1 as [|a l [x Hx] _ [y Hy]]; simpl.
  - exists 0. reflexivity.
  - subst a. rewrite Hy. exists (x + y). reflexivity.
Qed.

Lemma fmul_finite x a : is_finite a -> is_finite (fmul (Fin x) a).
Proof. intros [y ->]. exists (x * y). reflexivity. Qed.

Lemma fdiv_finite a y : is_finite a -> y <> 0 -> is_finite (fdiv a (Fin y)).
Proof.
  intros [x ->] Hy. simpl. destruct (Req_dec_T y 0); [contradiction|].
  exists (x / y). reflexivity.
Qed.

Lemma Forall_tab {A} (Q : A -> Prop) n g :
  (forall i, (i < n)%nat -> Q (g i)) -> Forall Q (tab n g).
Proof.
  intros H. unfold tab. apply Forall_forall. intros a Ha.
  apply in_map_iff in Ha. destruct Ha as (i & <- & Hi).
  apply in_seq in Hi. apply H. lia.
Qed.

Lemma In_tab {A} n (g : nat -> A) i : (i < n)%nat -> In (g i) (tab n g).
Proof.
  intros H. unfold tab. apply in_map. apply in_seq. lia.
Qed.

Section Line88.
Variables (self : OrdinalSupConLoss) (ac bs n m : nat).
Variables (mask : matrix R) (log_prob : matrix fval).
Hypothesis Hmask : is_mat n m mask.
Hypothesis Hlp : is_mat n m log_prob.
Hypothesis Hn : n = (ac * bs)%nat.
Hypothesis Hn1 : (1 <= n)%nat.
Hypothesis HbT : base_temperature self <> 0.

Let ml := fun i =>
  fdiv (fsum (tab m (fun j => fmul (Fin (get 0 mask i j))
                                   (get (Fin 0) log_prob i j))))
       (Fin (rsum (tab m (get 0 mask i)))).

Lemma value_loss_of :
  value (loss_of self ac bs mask log_prob) =
  Ok (fmean (tab n (fun i =>
        fmul (Fin (- (temperature self / base_temperature self))) (ml i)))).
Proof.
  unfold loss_of.
  rewrite (mat_eta 0 n m mask Hmask) at 1.
  rewrite (mat_eta (Fin 0) n m log_prob Hlp) at 1.
  rewrite mean_log_prob_pos_of_mk by exact Hn1.
  rewrite (value_reduce_loss_tab self ac bs n _ Hn).
  destruct (Req_dec_T _ _); [contradiction | reflexivity].
Qed.

Lemma row_is_tab i : (i < n)%nat -> nth i mask [] = tab m (get 0 mask i).
Proof.
  intros Hi. rewrite (mat_eta 0 n m mask Hmask) at 1.
  unfold mk. rewrite nth_tab by exact Hi. reflexivity.
Qed.

Lemma loss_of_NaN_without_positives i :
  (i < n)%nat -> Forall (fun x => 0 <= x) (nth i mask []) ->
  rsum (nth i mask []) = 0 ->
  value (loss_of self ac bs mask log_prob) = Ok NaN.
Proof.
  intros Hi Hpos Hz. rewrite value_loss_of. f_equal.
  assert (Hml : ml i = NaN).
  { unfold ml. rewrite <- (row_is_tab i Hi), Hz. apply fdiv_by_zero.
    apply fsum_zero_or_NaN. intros a Ha.
    unfold tab in Ha. apply in_map_iff in Ha. destruct Ha as (j & <- & Hj).
    apply in_seq in Hj.
    pose proof (rsum_zero_all_zero _ Hpos Hz) as Hall.
    rewrite Forall_forall in Hall.
    replace (get 0 mask i j) with 0; [apply fmul_zero|].
    symmetry. apply Hall. unfold get. apply nth_In.
    rewrite (row_is_tab i Hi), length_tab. lia. }
  unfold fmean. rewrite (fsum_NaN (tab n _)); [reflexivity|].
  replace NaN
    with (fmul (Fin (- (temperature self / base_temperature self))) (ml i))
    by (rewrite Hml; reflexivity).
  apply (In_tab n (fun i => fmul _ (ml i))). exact Hi.
Qed.

Lemma loss_of_finite :
  (forall i, (i < n)%nat -> rsum (nth i mask []) <> 0) ->
  (forall i j, (i < n)%nat -> (j < m)%nat ->
     is_finite (get (Fin 0) log_prob i j)) ->
  exists r, value (loss_of self ac bs mask log_prob) = Ok (Fin r).
Proof.
  intros Hpos Hfin. rewrite value_loss_of.
  assert (F : is_finite (fmean (tab n (fun i =>
     fmul (Fin (- (temperature self / base_temperature self))) (ml i))))).
  { unfold fmean. rewrite length_tab. apply fdiv_finite.
    - apply fsum_finite. apply Forall_tab. intros i Hi. apply fmul_finite.
      unfold ml. apply fdiv_finite.
      + apply fsum_finite. apply Forall_tab. intros j Hj.
        apply fmul_finite. apply Hfin; assumption.
      + rewrite <- (row_is_tab i Hi). apply Hpos. exact Hi.
    - apply not_0_INR. lia. }
  destruct F as [r Hr]. exists r. rewrite Hr. reflexivity.
Qed.
End Line88.

Lemma rsum_zeros {X} (g : X -> R) l :
  (forall k, g k = 0) -> rsum (map g l) = 0.
Proof.
  intros H. induction l as [|k l IH]; simpl; [reflexivity | rewrite H, IH; lra].
Qed.

Lemma flog_0 : flog 0 = NInf.
Proof.
  unfold flog. destruct (Rlt_dec 0 0) as [H|_]; [lra|].
  destruct (Req_dec_T 0 0) as [_|H]; [reflexivity | contradiction].
Qed.

(** When every weight is zero (all labels equal) the sums of line 84 are
    zero, their logarithm is minus infinity, and the zero mask entry of the
    diagonal times the infinite log-probability is NaN. *)
Lemma cf_loss_NaN_zero_weights c Na N L P W :
  (forall k j, W k j = 0) -> (forall i, P i i = 0) ->
  (1 <= Na)%nat -> (Na <= N)%nat ->
  cf_loss c Na N L P W = NaN.
Proof.
  intros HW HP H1 H2.
  assert (Hlp : forall i j, cf_log_prob N L W i j = PInf).
  { intros i j. unfold cf_log_prob, cf_den, tab.
    rewrite rsum_zeros by (intros k; rewrite HW; lra).
    rewrite flog_0. reflexivity. }
  assert (Hml : forall i, (i < Na)%nat -> cf_mean_log_prob_pos N L P W i = NaN).
  { intros i Hi. unfold cf_mean_log_prob_pos.
    rewrite (fsum_NaN (tab N _)); [reflexivity|].
    replace NaN with (fmul (Fin (P i i)) (cf_log_prob N L W i i))
      by (rewrite HP, Hlp; simpl; apply inf_scaled_0).
    apply (In_tab N (fun j => fmul (Fin (P i j)) (cf_log_prob N L W i j))). lia. }
  unfold cf_loss, fmean. rewrite (fsum_NaN (tab Na _)); [reflexivity|].
  replace NaN with (fmul (Fin c) (cf_mean_log_prob_pos N L P W 0))
    by (rewrite Hml by lia; reflexivity).
  apply (In_tab Na (fun i => fmul (Fin c) (cf_mean_log_prob_pos N L P W i))). lia.
Qed.



Lemma is_mat_mk {A} n m (g : nat -> nat -> A) : is_mat n m (mk n m g).
Proof.
  split; [apply length_tab|]. apply Forall_tab. intros i _. apply length_tab.
Qed.

Lemma log_prob_of_finite n m logits sums i j :
  is_mat n m logits -> is_mat n m sums -> (i < n)%nat -> (j < m)%nat ->
  0 < get 0 sums i j ->
  is_finite (get (Fin 0) (log_prob_of logits sums) i j).
Proof.
  intros Hl Hs Hi Hj Hpos.
  rewrite (mat_eta 0 n m logits Hl), (mat_eta 0 n m sums Hs).
  rewrite log_prob_of_mk, get_mk by lia.
  unfold flog. destruct (Rlt_dec 0 (get 0 sums i j)); [|contradiction].
  eexists. reflexivity.
Qed.

Lemma is_mat_log_prob_of n m logits sums :
  (1 <= n)%nat -> is_mat n m logits -> is_mat n m sums ->
  is_mat n m (log_prob_of logits sums).
Proof.
  intros Hn Hl Hs.
  rewrite (mat_eta 0 n m logits Hl), (mat_eta 0 n m sums Hs).
  rewrite log_prob_of_mk by exact Hn. apply is_mat_mk.
Qed.


(** ** Sums and maxima do not depend on the order of the terms *)

Lemma fadd_comm a b : fadd a b = fadd b a.
Proof. destruct a, b; simpl; try reflexivity; f_equal; lra. Qed.

Lemma fadd_assoc a b c : fadd a (fadd b c) = fadd (fadd a b) c.
Proof. destruct a, b, c; simpl; try reflexivity; f_equal; lra. Qed.

Lemma fsum_perm l l' : Permutation l l' -> fsum l = fsum l'.
Proof.
  induction 1 as [|a l l' _ IH|a b l|l l' l'' _ IH1 _ IH2]; simpl.
  - reflexivity.
  - rewrite IH. reflexivity.
  - rewrite !fadd_assoc, (fadd_comm b a). reflexivity.
  - congruence.
Qed.

Lemma rsum_perm l l' : Permutation l l' -> rsum l = rsum l'.
Proof.
  induction 1 as [|a l l' _ IH|a b l|l l' l'' _ IH1 _ IH2]; simpl; lra.
Qed.

Lemma fold_left_Rmax_spec t : forall x,
  (fold_left Rmax t x = x \/ In (fold_left Rmax t x) t) /\
  x <= fold_left Rmax t x /\
  (forall y, In y t -> y <= fold_left Rmax t x).
Proof.
  induction t as [|a t IH]; intros x; simpl.
  - repeat split; [left; reflexivity | lra | contradiction].
  - destruct (IH (Rmax x a)) as (Hin & Hle & Hall).
    pose proof (Rmax_l x a). pose proof (Rmax_r x a).
    repeat split.
    + destruct Hin as [E|Hin]; [|right; right; exact Hin].
      rewrite E. unfold Rmax. destruct (Rle_dec x a); [right; left|left]; reflexivity.
    + lra.
    + intros y [<-|Hy]; [lra | apply Hall; exact Hy].
Qed.

Lemma row_max_spec l :
  l <> [] -> In (row_max l) l /\ (forall y, In y l -> y <= row_max l).
Proof.
  destruct l as [|x t]; [congruence|]. intros _. simpl.
  destruct (fold_left_Rmax_spec t x) as (Hin & Hle & Hall). split.
  - destruct Hin as [E|Hin]; [left; symmetry; exact E | right; exact Hin].
  - intros y [<-|Hy]; [exact Hle | apply Hall; exact Hy].
Qed.

Lemma row_max_perm l l' : Permutation l l' -> row_max l = row_max l'.
Proof.
  intros HP. destruct l as [|x t].
  - apply Permutation_nil in HP. subst l'. reflexivity.
  - assert (Hl' : l' <> []).
    { intros ->. apply Permutation_sym, Permutation_nil in HP. discriminate. }
    destruct (row_max_spec (x :: t)) as (Hin & Hall); [discriminate|].
    destruct (row_max_spec l' Hl') as (Hin' & Hall').
    apply Rle_antisym.
    + apply Hall'. apply (Permutation_in _ HP). exact Hin.
    + apply Hall. apply (Permutation_in _ (Permutation_sym HP)). exact Hin'.
Qed.

(** Reindexing a tabulated sum by a permutation of the indices. *)
Section Reindex.
Variables (n : nat) (pi : nat -> nat).
Hypothesis Hpi : Permutation (tab n pi) (seq 0 n).

Lemma tab_reindex {A} (g : nat -> A) :
  Permutation (tab n (fun i => g (pi i))) (tab n g).
Proof.
  unfold tab at 1. rewrite <- (map_map pi g). apply Permutation_map. exact Hpi.
Qed.

Lemma rsum_reindex g : rsum (tab n (fun i => g (pi i))) = rsum (tab n g).
Proof. apply rsum_perm, tab_reindex. Qed.

Lemma fsum_reindex g : fsum (tab n (fun i => g (pi i))) = fsum (tab n g).
Proof. apply fsum_perm, tab_reindex. Qed.

Lemma row_max_reindex g :
  row_max (tab n (fun i => g (pi i))) = row_max (tab n g).
Proof. apply row_max_perm, tab_reindex. Qed.

Lemma reindex_bound i : (i < n)%nat -> (pi i < n)%nat.
Proof.
  intros Hi. assert (H : In (pi i) (seq 0 n)).
  { apply (Permutation_in _ Hpi). apply In_tab. exact Hi. }
  apply in_seq in H. lia.
Qed.

Lemma reindex_inj i j :
  (i < n)%nat -> (j < n)%nat -> pi i = pi j -> i = j.
Proof.
  intros Hi Hj E.
  assert (ND : NoDup (tab n pi)).
  { apply (Permutation_NoDup (Permutation_sym Hpi)). apply seq_NoDup. }
  apply (proj1 (NoDup_nth (tab n pi) 0%nat) ND);
    rewrite ?length_tab, ?nth_tab by assumption; assumption.
Qed.

Lemma self_excl_reindex i j :
  (i < n)%nat -> (j < n)%nat -> self_excl (pi i) (pi j) = self_excl i j.
Proof.
  intros Hi Hj. unfold self_excl.
  destruct (Nat.eqb_spec i j) as [E|E].
  - subst j. rewrite Nat.eqb_refl. reflexivity.
  - destruct (Nat.eqb_spec (pi i) (pi j)) as [E'|E']; [|reflexivity].
    exfalso. apply E. apply reindex_inj; assumption.
Qed.
End Reindex.

(** ** The entrywise loss under a permutation of the pool *)

Section LossReindex.
Variables (c : R) (Na N : nat) (pi : nat -> nat).
Variables (L P W L' P' W' : nat -> nat -> R).
Hypothesis HpiN : Permutation (tab N pi) (seq 0 N).
Hypothesis HpiNa : Permutation (tab Na pi) (seq 0 Na).
Hypothesis HNa : (Na <= N)%nat.
Hypothesis HL : forall i j, (i < N)%nat -> (j < N)%nat -> L' i j = L (pi i) (pi j).
Hypothesis HP : forall i j, (i < N)%nat -> (j < N)%nat -> P' i j = P (pi i) (pi j).
Hypothesis HW : forall i j, (i < N)%nat -> (j < N)%nat -> W' i j = W (pi i) (pi j).

Lemma cf_den_reindex i j :
  (i < N)%nat -> (j < N)%nat ->
  cf_den N L' W' i j = cf_den N L W (pi i) (pi j).
Proof.
  intros Hi Hj. unfold cf_den.
  rewrite <- (rsum_reindex N pi HpiN
                (fun k => exp (L (pi i) k) * self_excl (pi i) k * W k (pi j))).
  f_equal. apply tab_ext. intros k Hk.
  rewrite HL, HW, (self_excl_reindex N pi HpiN) by assumption. reflexivity.
Qed.

Lemma cf_log_prob_reindex i j :
  (i < N)%nat -> (j < N)%nat ->
  cf_log_prob N L' W' i j = cf_log_prob N L W (pi i) (pi j).
Proof.
  intros Hi Hj. unfold cf_log_prob.
  rewrite cf_den_reindex, HL by assumption. reflexivity.
Qed.

Lemma cf_mean_log_prob_pos_reindex i :
  (i < N)%nat ->
  cf_mean_log_prob_pos N L' P' W' i = cf_mean_log_prob_pos N L P W (pi i).
Proof.
  intros Hi. unfold cf_mean_log_prob_pos. f_equal.
  - rewrite <- (fsum_reindex N pi HpiN
                  (fun j => fmul (Fin (P (pi i) j)) (cf_log_prob N L W (pi i) j))).
    f_equal. apply tab_ext. intros j Hj.
    rewrite HP, cf_log_prob_reindex by assumption. reflexivity.
  - f_equal. rewrite <- (rsum_reindex N pi HpiN (P (pi i))).
    f_equal. apply tab_ext. intros j Hj. apply HP; assumption.
Qed.

Lemma cf_loss_reindex :
  cf_loss c Na N L' P' W' = cf_loss c Na N L P W.
Proof.
  unfold cf_loss, fmean. rewrite !length_tab. f_equal.
  rewrite <- (fsum_reindex Na pi HpiNa
                (fun i => fmul (Fin c) (cf_mean_log_prob_pos N L P W i))).
  f_equal. apply tab_ext. intros i Hi.
  rewrite cf_mean_log_prob_pos_reindex by lia. reflexivity.
Qed.
End LossReindex.

(** ** A permutation of the batch permutes the pool *)

Lemma seq_tab a n : seq a n = tab n (fun p => (a + p)%nat).
Proof.
  apply (nth_ext _ _ 0%nat 0%nat).
  - rewrite length_seq, length_tab. reflexivity.
  - intros i Hi. rewrite length_seq in Hi.
    rewrite seq_nth, nth_tab by exact Hi. reflexivity.
Qed.

Section BatchPermutation.
Variables (B : nat) (sigma : list nat).
Hypothesis Hsigma : Permutation sigma (seq 0 B).

Lemma sigma_length : length sigma = B.
Proof. rewrite (Permutation_length Hsigma). apply length_seq. Qed.

Lemma sigma_bound p : (p < B)%nat -> (nth p sigma 0 < B)%nat.
Proof.
  intros Hp. assert (H : In (nth p sigma 0%nat) (seq 0 B)).
  { apply (Permutation_in _ Hsigma). apply nth_In. rewrite sigma_length. exact Hp. }
  apply in_seq in H. lia.
Qed.

Lemma batch_reindex_block k p :
  (p < B)%nat ->
  batch_reindex B sigma (k * B + p) = (k * B + nth p sigma 0)%nat.
Proof.
  intros Hp. unfold batch_reindex.
  replace (k * B + p)%nat with (p + k * B)%nat by lia.
  rewrite Nat.div_add, Nat.Div0.mod_add by lia.
  rewrite Nat.div_small, Nat.mod_small by exact Hp. reflexivity.
Qed.

Lemma batch_reindex_perm k :
  Permutation (tab (k * B) (batch_reindex B sigma)) (seq 0 (k * B)).
Proof.
  induction k as [|k IH]; [apply perm_nil|].
  replace (S k * B)%nat with (k * B + B)%nat by lia.
  rewrite tab_app, seq_app. apply Permutation_app; [exact IH|].
  rewrite (tab_ext B _ (fun p => (k * B + nth p sigma 0)%nat))
    by (intros p Hp; apply batch_reindex_block; exact Hp).
  assert (E : tab B (fun p => (k * B + nth p sigma 0)%nat)
              = map (fun s => (0 + k * B + s)%nat) sigma).
  { transitivity (map (fun s => (0 + k * B + s)%nat)
                      (tab B (fun p => nth p sigma 0%nat))).
    - rewrite map_tab. reflexivity.
    - f_equal. symmetry. apply list_eta, sigma_length. }
  rewrite E, (seq_tab (0 + k * B) B). unfold tab.
  apply Permutation_map. exact Hsigma.
Qed.

Lemma batch_reindex_mod i :
  (1 <= B)%nat ->
  (batch_reindex B sigma i mod B = nth (i mod B) sigma 0)%nat.
Proof.
  intros HB. unfold batch_reindex.
  rewrite Nat.add_comm, Nat.Div0.mod_add. apply Nat.mod_small.
  apply sigma_bound. apply Nat.mod_upper_bound. lia.
Qed.

Lemma batch_reindex_div i :
  (1 <= B)%nat -> (batch_reindex B sigma i / B = i / B)%nat.
Proof.
  intros HB. unfold batch_reindex.
  rewrite Nat.add_comm, Nat.div_add by lia.
  rewrite Nat.div_small; [reflexivity|].
  apply sigma_bound. apply Nat.mod_upper_bound. lia.
Qed.
End BatchPermutation.

Lemma slice_tab {A} (d : A) off len l :
  (off + len <= length l)%nat ->
  slice off len l = tab len (fun t => nth (off + t) l d).
Proof.
  intros H. apply (nth_ext _ _ d d).
  - rewrite length_slice, length_tab by exact H. reflexivity.
  - intros i Hi. rewrite length_slice in Hi by exact H.
    rewrite nth_tab by exact Hi. unfold slice.
    rewrite nth_firstn, nth_skipn.
    destruct (Nat.ltb_spec i len); [reflexivity | lia].
Qed.

Section PermutedData.
Variables (B c : nat) (sigma : list nat) (dat : list R).
Hypothesis Hsigma : Permutation sigma (seq 0 B).
Hypothesis Hc : (1 <= c)%nat.
Hypothesis Hlen : length dat = (B * c)%nat.

Lemma permuted_data :
  flat_map (fun b => slice (b * c) c dat) sigma
  = tab (B * c) (fun q => nth (nth (q / c) sigma 0%nat * c + q mod c) dat 0).
Proof.
  rewrite flat_map_concat_map.
  rewrite (list_eta 0%nat B sigma (sigma_length B sigma Hsigma)) at 1.
  rewrite map_tab.
  rewrite (tab_ext B _
             (fun p => tab c (fun t => nth (nth p sigma 0%nat * c + t) dat 0))).
  - apply (concat_tab_tab B c
             (fun p t => nth (nth p sigma 0%nat * c + t) dat 0) Hc).
  - intros p Hp. apply slice_tab. rewrite Hlen.
    pose proof (sigma_bound B sigma Hsigma p Hp) as Hs.
    replace (nth p sigma 0%nat * c + c)%nat
      with ((nth p sigma 0%nat + 1) * c)%nat by lia.
    apply Nat.mul_le_mono_r. lia.
Qed.

Lemma nth_permuted_data b t :
  (b < B)%nat -> (t < c)%nat ->
  nth (b * c + t) (flat_map (fun b => slice (b * c) c dat) sigma) 0
  = nth (nth b sigma 0%nat * c + t) dat 0.
Proof.
  intros Hb Ht. rewrite permuted_data.
  assert (Hq : (b * c + t < B * c)%nat).
  { replace (B * c)%nat with (b * c + (B - b) * c)%nat by nia.
    assert (c <= (B - b) * c)%nat by nia. lia. }
  rewrite nth_tab by exact Hq.
  replace (b * c + t)%nat with (t + b * c)%nat by lia.
  rewrite Nat.div_add, Nat.Div0.mod_add by lia.
  rewrite Nat.div_small, Nat.mod_small by exact Ht. reflexivity.
Qed.

Lemma length_permuted_data :
  length (flat_map (fun b => slice (b * c) c dat) sigma) = (B * c)%nat.
Proof. rewrite permuted_data. apply length_tab. Qed.
End PermutedData.

Lemma shape_tail_valid f B V D :
  valid_features f B V D -> prod_dims (tl (shape f)) = (V * D)%nat.
Proof.
  intros (rest & Hs & _ & Hp & _). rewrite Hs. simpl. rewrite Hp. reflexivity.
Qed.

Lemma valid_features_permute sigma f B V D :
  Permutation sigma (seq 0 B) -> valid_features f B V D ->
  valid_features (permute_batch sigma f) B V D.
Proof.
  intros Hs Hf.
  pose proof (valid_features_length f B V D Hf) as Hlen.
  pose proof (shape_tail_valid f B V D Hf) as Ht.
  destruct Hf as (rest & Hsh & Hr & Hp & Hw & HB & HV & HD).
  exists rest. unfold permute_batch, wf_tensor. simpl.
  repeat split; try assumption.
  rewrite Ht, (length_permuted_data B (V * D) sigma (data f) Hs) by nia.
  rewrite Hsh. simpl. rewrite Hp. lia.
Qed.

Lemma pool_vec_permute sigma f B V D i :
  Permutation sigma (seq 0 B) -> valid_features f B V D -> (i < V * B)%nat ->
  pool_vec (mkTensor [B; V; D] (data (permute_batch sigma f))) i
  = pool_vec (mkTensor [B; V; D] (data f)) (batch_reindex B sigma i).
Proof.
  intros Hs Hf Hi.
  pose proof (valid_features_length f B V D Hf) as Hlen.
  pose proof (shape_tail_valid f B V D Hf) as Ht.
  destruct Hf as (rest & Hsh & Hr & Hp & Hw & HB & HV & HD).
  assert (Hb : (i mod B < B)%nat) by (apply Nat.mod_upper_bound; lia).
  assert (Hv : (i / B < V)%nat) by (apply Nat.Div0.div_lt_upper_bound; lia).
  pose proof (sigma_bound B sigma Hs _ Hb) as Hsb.
  unfold pool_vec. change (dim 0 _) with B.
  rewrite batch_reindex_mod, batch_reindex_div by assumption.
  unfold frow, dim. simpl nth. unfold permute_batch. simpl data. rewrite Ht.
  set (b := (i mod B)%nat) in *. set (v := (i / B)%nat) in *.
  assert (Hbound : forall b', (b' < B)%nat -> ((b' * V + v) * D + D <= B * V * D)%nat).
  { intros b' Hb'. assert (b' * V + v + 1 <= B * V)%nat by nia.
    replace ((b' * V + v) * D + D)%nat with ((b' * V + v + 1) * D)%nat by lia.
    apply Nat.mul_le_mono_r. assumption. }
  rewrite (slice_tab 0 ((b * V + v) * D) D)
    by (rewrite (length_permuted_data B (V * D) sigma (data f) Hs) by nia;
        rewrite <- Nat.mul_assoc in Hbound; apply Hbound; exact Hb).
  rewrite (slice_tab 0 ((nth b sigma 0%nat * V + v) * D) D (data f))
    by (rewrite Hlen; apply Hbound; exact Hsb).
  apply tab_ext. intros d Hd.
  replace ((b * V + v) * D + d)%nat with (b * (V * D) + (v * D + d))%nat by ring.
  assert (Hvd : (v * D + d < V * D)%nat).
  { assert ((v + 1) * D <= V * D)%nat by (apply Nat.mul_le_mono_r; lia). lia. }
  rewrite (nth_permuted_data B (V * D) sigma (data f) Hs) by (try nia; assumption).
  f_equal. ring.
Qed.

Lemma pool_label_permute sigma l B i :
  Permutation sigma (seq 0 B) -> (1 <= B)%nat ->
  shape l = [B] -> length (data l) = B ->
  pool_label B (data (permute_batch sigma l)) i
  = pool_label B (data l) (batch_reindex B sigma i).
Proof.
  intros Hs HB Hsh Hl. unfold pool_label.
  rewrite (batch_reindex_mod B sigma Hs) by exact HB.
  unfold permute_batch. simpl data. rewrite Hsh. simpl prod_dims.
  assert (Hb : (i mod B < B)%nat) by (apply Nat.mod_upper_bound; lia).
  pose proof (nth_permuted_data B 1 sigma (data l) Hs (le_n 1)) as Hn.
  specialize (Hn ltac:(lia) (i mod B)%nat 0%nat Hb ltac:(lia)).
  rewrite !Nat.mul_1_r, !Nat.add_0_r in Hn.
  symmetry. rewrite <- Hn. reflexivity.
Qed.

Lemma length_permute_labels sigma l B :
  Permutation sigma (seq 0 B) -> shape l = [B] -> length (data l) = B ->
  length (data (permute_batch sigma l)) = B.
Proof.
  intros Hs Hsh Hl. unfold permute_batch. simpl data. rewrite Hsh. simpl prod_dims.
  rewrite (length_permuted_data B 1 sigma (data l) Hs) by lia. lia.
Qed.

(** ** The loss under a joint permutation of the batch *)

Lemma ref_logit_reindex T N pi (x x' : nat -> list R) i j :
  Permutation (tab N pi) (seq 0 N) ->
  (forall k, (k < N)%nat -> x' k = x (pi k)) ->
  (i < N)%nat -> (j < N)%nat ->
  ref_logit T N x' i j = ref_logit T N x (pi i) (pi j).
Proof.
  intros Hpi Hx Hi Hj. unfold ref_logit, ref_rowmax.
  rewrite <- (row_max_reindex N pi Hpi (ref_sim T x (pi i))).
  f_equal.
  - unfold ref_sim. rewrite !Hx by assumption. reflexivity.
  - f_equal. apply tab_ext. intros k Hk. unfold ref_sim.
    rewrite !Hx by assumption. reflexivity.
Qed.

Lemma label_pos_reindex B sigma labels labels' i j :
  Permutation sigma (seq 0 B) -> (1 <= B)%nat ->
  (forall k, pool_label B labels' k = pool_label B labels (batch_reindex B sigma k)) ->
  (i < 2 * B)%nat -> (j < 2 * B)%nat ->
  label_pos B labels' i j
  = label_pos B labels (batch_reindex B sigma i) (batch_reindex B sigma j).
Proof.
  intros Hs HB Hl Hi Hj. unfold label_pos.
  rewrite (self_excl_reindex (2 * B) _ (batch_reindex_perm B sigma Hs 2))
    by assumption.
  f_equal. f_equal. f_equal; apply Hl.
Qed.

(** C8: on valid two-view features with [B] labels, permuting the batch
    axis of the features and the labels by the same permutation leaves the
    result of the call unchanged. *)
Theorem C8_batch_permutation_invariance self f l sigma B D :
  valid_features f B 2 D ->
  shape l = [B] -> length (data l) = B ->
  Permutation sigma (seq 0 B) ->
  temperature self <> 0 ->
  value (construct self (permute_batch sigma f) (Some (permute_batch sigma l)) None)
  = value (construct self f (Some l) None).
Proof.
  intros Hf Hsh Hl Hs _.
  pose proof (valid_features_permute sigma f B 2 D Hs Hf) as Hf'.
  pose proof (length_permute_labels sigma l B Hs Hsh Hl) as Hl'.
  assert (HB : (1 <= B)%nat) by (destruct Hf as (? & _ & _ & _ & _ & H & _); exact H).
  unfold construct.
  destruct (String.eqb_spec (contrast_mode self) "one") as [E1|E1];
    [| destruct (String.eqb_spec (contrast_mode self) "all") as [E2|E2]].
  1, 2:
    (assert (Hm : valid_mode self) by (unfold valid_mode; tauto);
     rewrite (value_construct_labels true self _ _ B D Hf' Hm Hl');
     rewrite (value_construct_labels true self _ _ B D Hf Hm Hl);
     cbv zeta; destruct (Req_dec_T _ _); [reflexivity|]; f_equal;
     pose proof (anchor_blocks_bounds self 2 (le_S _ _ (le_n 1))) as Hab;
     apply (cf_loss_reindex _ (anchor_blocks self 2 * B) (2 * B)
              (batch_reindex B sigma));
     [ apply (batch_reindex_perm B sigma Hs 2)
     | apply (batch_reindex_perm B sigma Hs (anchor_blocks self 2))
     | nia
     | intros i j Hi Hj;
       apply (ref_logit_reindex _ _ _ _ _ i j (batch_reindex_perm B sigma Hs 2));
       [ intros k Hk; apply (pool_vec_permute sigma f B 2 D k Hs Hf Hk)
       | exact Hi | exact Hj ]
     | intros i j Hi Hj; apply (label_pos_reindex B sigma _ _ i j Hs HB);
       [ intros k; apply (pool_label_permute sigma l B k Hs HB Hsh Hl)
       | exact Hi | exact Hj ]
     | intros i j _ _; unfold ref_weight;
       rewrite !(pool_label_permute sigma l B _ Hs HB Hsh Hl); reflexivity ]).
  pose proof (valid_features_rank f B 2 D Hf) as Hrk.
  pose proof (valid_features_rank _ B 2 D Hf') as Hrk'.
  rewrite (value_construct_unknown_mode true self _ _ None
             (label_mask (view_col (permute_batch sigma l)),
              Some (label_weights (view_col (permute_batch sigma l)))) Hrk' E1 E2).
  - rewrite (value_construct_unknown_mode true self _ _ None
               (label_mask (view_col l), Some (label_weights (view_col l)))
               Hrk E1 E2); [reflexivity|].
    rewrite value_select_mask_labels, (flattened_valid f B 2 D Hf).
    change (dim 0 _) with B. rewrite Hl, Nat.eqb_refl. reflexivity.
  - rewrite value_select_mask_labels, (flattened_valid _ B 2 D Hf').
    change (dim 0 _) with B. rewrite Hl', Nat.eqb_refl. reflexivity.
Qed.

Lemma C8_batch_permutation_invariance_witness :
  value (construct demo_loss (permute_batch [1; 0]%nat demo_features)
           (Some (permute_batch [1; 0]%nat demo_labels)) None)
  = value (construct demo_loss demo_features (Some demo_labels) None).
Proof.
  apply (C8_batch_permutation_invariance demo_loss demo_features demo_labels
           [1; 0]%nat 2 1).
  - exact valid_demo_features.
  - reflexivity.
  - reflexivity.
  - apply perm_swap.
  - unfold demo_loss; simpl; lra.
Defined.

(** ** Line 88 on the labels path: positive row sums *)

Lemma rsum_pos l x :
  Forall (fun y => 0 <= y) l -> In x l -> 0 < x -> 0 < rsum l.
Proof.
  induction 1 as [|y l Hy Hl IH]; simpl; [contradiction|].
  intros [->|Hin] Hx.
  - pose proof (rsum_nonneg l Hl). lra.
  - specialize (IH Hin Hx). lra.
Qed.

Lemma rsum_tab_pos N g k :
  (forall i, (i < N)%nat -> 0 <= g i) -> (k < N)%nat -> 0 < g k ->
  0 < rsum (tab N g).
Proof.
  intros Hg Hk Hpos. apply (rsum_pos _ (g k)).
  - apply Forall_tab. exact Hg.
  - apply In_tab. exact Hk.
  - exact Hpos.
Qed.

Lemma self_excl_nonneg i j : 0 <= self_excl i j.
Proof. unfold self_excl. destruct (Nat.eqb i j); lra. Qed.

Lemma self_excl_off_diagonal i j : i <> j -> self_excl i j = 1.
Proof.
  intros H. unfold self_excl. destruct (Nat.eqb_spec i j); [contradiction | lra].
Qed.

Lemma positive_row_sum B labels i :
  (1 <= B)%nat -> (i < 2 * B)%nat ->
  0 < rsum (tab (2 * B) (label_pos B labels i)).
Proof.
  intros HB Hi.
  assert (Hj : exists j, (j < 2 * B)%nat /\ j <> i /\ (j mod B = i mod B)%nat).
  { destruct (Nat.lt_ge_cases i B) as [L|L].
    - exists (i + B)%nat. repeat split; [lia | lia |].
      replace (i + B)%nat with (i + 1 * B)%nat by lia.
      apply Nat.Div0.mod_add.
    - exists (i - B)%nat. repeat split; [lia | lia |].
      replace i with ((i - B) + 1 * B)%nat at 2 by lia.
      symmetry. apply Nat.Div0.mod_add. }
  destruct Hj as (j & Hj & Hne & Hmod).
  apply (rsum_tab_pos _ _ j); [|exact Hj|].
  - intros t _. unfold label_pos. rewrite float_req.
    pose proof (self_excl_nonneg i t).
    destruct (Req_dec_T _ _); lra.
  - unfold label_pos. rewrite Hmod, float_req, self_excl_off_diagonal by auto.
    destruct (Req_dec_T _ _) as [_|H]; [lra | contradiction].
Qed.



(** ** The tensor operations on small inputs *)

Example pool_of_demo_features :
  concat (unbind1 demo_features) = [[1]; [3]; [2]; [4]].
Proof. reflexivity. Qed.

Example view0_of_demo_features : getitem_view0 demo_features = [[1]; [3]].
Proof. reflexivity. Qed.

Example tile_2_2 :
  tile 2 2 [[1; 2]; [3; 4]]
  = [[1; 2; 1; 2]; [3; 4; 3; 4]; [1; 2; 1; 2]; [3; 4; 3; 4]].
Proof. reflexivity. Qed.

Example transpose_2_3 :
  transpose [[1; 2; 3]; [4; 5; 6]] = [[1; 4]; [2; 5]; [3; 6]].
Proof. reflexivity. Qed.

Example eye_2_3 : eye 2 3 = [[1; 0; 0]; [0; 1; 0]].
Proof. reflexivity. Qed.

Example permute_demo_features :
  data (permute_batch [1; 0]%nat demo_features) = [3; 4; 1; 2].
Proof. reflexivity. Qed.

Example rows_of_demo_mask : rows_of demo_mask = [[1; 0]; [0; 1]].
Proof. reflexivity. Qed.

Example view3_rank4 : view3 rank4_features = mkTensor [1; 2; 1]%nat [1; 1].
Proof. reflexivity. Qed.

(** * Further properties of the program *)

(** ** Lines 35-37: the rank check *)

(** X1: features of rank below 3 are rejected with the ValueError of line
    36, whatever [labels] and [mask] are, before any tensor operation. *)
Theorem rank_below_3_rejected self f labels mask :
  (length (shape f) < 3)%nat ->
  value (construct self f labels mask) = Err ValueError_rank /\
  trace (construct self f labels mask) = [].
Proof.
  intros H. unfold construct, construct_gen, flatten_features.
  destruct (Nat.ltb_spec (length (shape f)) 3); [split; reflexivity | lia].
Qed.

Lemma rank_below_3_rejected_witness :
  value (construct demo_loss rank2_features (Some demo_labels) (Some demo_mask))
  = Err ValueError_rank.
Proof.
  apply (rank_below_3_rejected demo_loss rank2_features
           (Some demo_labels) (Some demo_mask)).
  simpl. lia.
Defined.

(** ** Line 39: a higher-rank input and its flattening *)

Lemma shape_view3_rank f :
  (3 <= length (shape f))%nat -> length (shape (view3 f)) = 3%nat.
Proof.
  unfold view3. destruct (shape f) as [|s0 [|s1 rest]]; simpl; try lia.
Qed.

(** X2: features of rank above 3 give the same result as the rank-3 tensor
    obtained by merging their trailing dimensions, on every path. *)
Theorem higher_rank_same_as_flattened self f labels mask :
  (3 < length (shape f))%nat ->
  value (construct self f labels mask)
  = value (construct self (view3 f) labels mask).
Proof.
  intros H. unfold construct.
  pose proof (shape_view3_rank f ltac:(lia)) as H3.
  rewrite !value_construct_gen by lia.
  assert (E1 : flattened f = view3 f).
  { unfold flattened. destruct (Nat.ltb_spec 3 (length (shape f))); [reflexivity | lia]. }
  assert (E2 : flattened (view3 f) = view3 f).
  { unfold flattened. rewrite H3. reflexivity. }
  rewrite E1, E2. reflexivity.
Qed.

Lemma higher_rank_same_as_flattened_witness :
  value (construct demo_loss rank4_features (Some single_label) None)
  = value (construct demo_loss (view3 rank4_features) (Some single_label) None).
Proof.
  apply (higher_rank_same_as_flattened demo_loss rank4_features
           (Some single_label) None).
  simpl. lia.
Defined.

(** ** Line 65 on every path *)

(** X3: with a [contrast_mode] other than "one" and "all", the call raises
    the ValueError of line 65 on the unsupervised path, on the mask path
    and on the labels path with the right number of labels: the mode is
    checked before line 84 is reached. *)
Theorem unknown_mode_on_every_path self f :
  (3 <= length (shape f))%nat ->
  contrast_mode self <> "one"%string -> contrast_mode self <> "all"%string ->
  value (construct self f None None) = Err ValueError_unknown_mode /\
  (forall m, value (construct self f None (Some m)) = Err ValueError_unknown_mode) /\
  (forall l, length (data l) = dim 0 f ->
     value (construct self f (Some l) None) = Err ValueError_unknown_mode).
Proof.
  intros Hrk H1 H2. unfold construct. repeat split.
  - apply (value_construct_unknown_mode true self f None None
             (eye (dim 0 (flattened f)) (dim 0 (flattened f)), None) Hrk H1 H2).
    reflexivity.
  - intros m.
    apply (value_construct_unknown_mode true self f None (Some m)
             (rows_of m, None) Hrk H1 H2).
    reflexivity.
  - intros l Hl.
    apply (value_construct_unknown_mode true self f (Some l) None
             (label_mask (view_col l), Some (label_weights (view_col l)))
             Hrk H1 H2).
    rewrite value_select_mask_labels, (dim0_flattened f Hrk), Hl, Nat.eqb_refl.
    reflexivity.
Qed.

Lemma unknown_mode_on_every_path_witness :
  value (construct (mkLoss (1/2) "two" (7/100)) demo_features None None)
  = Err ValueError_unknown_mode.
Proof.
  apply (unknown_mode_on_every_path (mkLoss (1/2) "two" (7/100)) demo_features).
  - simpl. lia.
  - discriminate.
  - discriminate.
Defined.

(** ** The labels path in any mode *)

Lemma value_construct_labels_any shift self f l B D :
  valid_features f B 2 D -> length (data l) = B ->
  value (construct_gen shift self f (Some l) None) =
  if (String.eqb (contrast_mode self) "one"
      || String.eqb (contrast_mode self) "all")%bool
  then
    if Req_dec_T (base_temperature self) 0 then Err ZeroDivisionError
    else Ok (cf_loss (- (temperature self / base_temperature self))
               (anchor_blocks self 2 * B) (2 * B)
               (if shift
                then ref_logit (temperature self) (2 * B)
                       (pool_vec (mkTensor [B; 2; D]%nat (data f)))
                else ref_sim (temperature self)
                       (pool_vec (mkTensor [B; 2; D]%nat (data f))))
               (label_pos B (data l))
               (ref_weight (pool_label B (data l))))
  else Err ValueError_unknown_mode.
Proof.
  intros Hf Hl.
  destruct (String.eqb_spec (contrast_mode self) "one") as [E1|E1];
    [| destruct (String.eqb_spec (contrast_mode self) "all") as [E2|E2]];
    cbn [orb].
  - apply (value_construct_labels shift self f l B D Hf (or_introl E1) Hl).
  - apply (value_construct_labels shift self f l B D Hf (or_intror E2) Hl).
  - pose proof (valid_features_rank f B 2 D Hf) as Hrk.
    apply (value_construct_unknown_mode shift self f (Some l) None
             (label_mask (view_col l), Some (label_weights (view_col l)))
             Hrk E1 E2).
    rewrite value_select_mask_labels, (flattened_valid f B 2 D Hf).
    change (dim 0 _) with B. rewrite Hl, Nat.eqb_refl. reflexivity.
Qed.

(** ** Line 91: a zero [base_temperature] *)

(** X4: a zero [base_temperature] is not rejected when the object is
    built; on a valid labelled two-view input the call runs up to line 91
    and raises ZeroDivisionError there. *)
Theorem zero_base_temperature_raises self f l B D :
  valid_features f B 2 D -> length (data l) = B -> valid_mode self ->
  base_temperature self = 0 ->
  value (construct self f (Some l) None) = Err ZeroDivisionError.
Proof.
  intros Hf Hl Hm Hb. unfold construct.
  rewrite (value_construct_labels true self f l B D Hf Hm Hl). cbv zeta.
  destruct (Req_dec_T _ _); [reflexivity | contradiction].
Qed.

Lemma zero_base_temperature_raises_witness :
  value (construct (mkLoss (1/2) "all" 0) demo_features (Some demo_labels) None)
  = Err ZeroDivisionError.
Proof.
  apply (zero_base_temperature_raises (mkLoss (1/2) "all" 0)
           demo_features demo_labels 2 1).
  - exact valid_demo_features.
  - reflexivity.
  - right. reflexivity.
  - reflexivity.
Defined.

(** ** Line 85: labels that are all equal *)

(** X5: when all the labels of a valid two-view batch are equal, the
    weights of line 52 are all zero and the call returns NaN, in both
    modes. *)
Theorem equal_labels_give_NaN self f l B D :
  valid_features f B 2 D -> length (data l) = B -> valid_mode self ->
  base_temperature self <> 0 ->
  (forall a b, (a < B)%nat -> (b < B)%nat -> nth a (data l) 0 = nth b (data l) 0) ->
  value (construct self f (Some l) None) = Ok NaN.
Proof.
  intros Hf Hl Hm HbT Heq.
  assert (HB : (1 <= B)%nat) by (destruct Hf as (? & _ & _ & _ & _ & H & _); exact H).
  pose proof (anchor_blocks_bounds self 2 (le_S _ _ (le_n 1))) as Hab.
  unfold construct. rewrite (value_construct_labels true self f l B D Hf Hm Hl).
  cbv zeta. destruct (Req_dec_T _ _); [contradiction|]. f_equal.
  apply cf_loss_NaN_zero_weights.
  - intros k j. unfold ref_weight, pool_label.
    rewrite (Heq (k mod B)%nat (j mod B)%nat)
      by (apply Nat.mod_upper_bound; lia).
    rewrite Rminus_diag. apply Rabs_R0.
  - intros i. unfold label_pos, self_excl. rewrite Nat.eqb_refl. lra.
  - nia.
  - nia.
Qed.

Lemma equal_labels_give_NaN_witness :
  value (construct demo_loss demo_features (Some equal_labels) None) = Ok NaN.
Proof.
  apply (equal_labels_give_NaN demo_loss demo_features equal_labels 2 1).
  - exact valid_demo_features.
  - reflexivity.
  - exact valid_mode_demo.
  - unfold demo_loss; simpl; lra.
  - intros a b Ha Hb.
    destruct a as [|[|a]]; destruct b as [|[|b]]; try lia; reflexivity.
Defined.

(** ** Line 88 on the labels path: no division by zero *)




(** ** Invariance under changes of the inputs *)

Lemma cf_loss_ext c Na N L L' P P' W W' :
  (forall i j, L' i j = L i j) -> (forall i j, P' i j = P i j) ->
  (forall i j, W' i j = W i j) ->
  cf_loss c Na N L' P' W' = cf_loss c Na N L P W.
Proof.
  intros HL HP HW. unfold cf_loss. f_equal. apply tab_ext. intros i _. f_equal.
  unfold cf_mean_log_prob_pos. f_equal.
  - f_equal. apply tab_ext. intros j _. rewrite HP. f_equal.
    unfold cf_log_prob, cf_den. rewrite HL. f_equal. f_equal. f_equal.
    apply tab_ext. intros k _. rewrite HL, HW. reflexivity.
  - f_equal. f_equal. apply tab_ext. intros j _. apply HP.
Qed.

Lemma pool_label_map g B labels i :
  (1 <= B)%nat -> length labels = B ->
  pool_label B (map g labels) i = g (pool_label B labels i).
Proof.
  intros HB Hl. unfold pool_label.
  rewrite (nth_indep (map g labels) 0 (g 0))
    by (rewrite length_map, Hl; apply Nat.mod_upper_bound; lia).
  apply map_nth.
Qed.

Lemma isometry_eq g a b :
  (forall x y, Rabs (g x - g y) = Rabs (x - y)) -> (g a = g b <-> a = b).
Proof.
  intros Hg. split; intros E.
  - pose proof (Hg a b) as H. rewrite E, Rminus_diag, Rabs_R0 in H.
    symmetry in H. destruct (Req_dec_T (a - b) 0) as [Z|Z]; [lra|].
    exfalso. apply (Rabs_no_R0 _ Z). exact H.
  - rewrite E. reflexivity.
Qed.

(** X8: the loss depends on the labels only through the absolute values of
    their differences: applying to every label a map that preserves these
    (a translation, a reflection) leaves the result of the call
    unchanged. *)
Theorem label_isometry_invariance self f l g B D :
  valid_features f B 2 D -> length (data l) = B ->
  (forall x y, Rabs (g x - g y) = Rabs (x - y)) ->
  value (construct self f (Some (map_tensor g l)) None)
  = value (construct self f (Some l) None).
Proof.
  intros Hf Hl Hg.
  assert (HB : (1 <= B)%nat) by (destruct Hf as (? & _ & _ & _ & _ & H & _); exact H).
  assert (Hl' : length (data (map_tensor g l)) = B)
    by (simpl; rewrite length_map; exact Hl).
  unfold construct.
  rewrite (value_construct_labels_any true self f _ B D Hf Hl').
  rewrite (value_construct_labels_any true self f l B D Hf Hl).
  destruct (_ || _)%bool; [|reflexivity].
  destruct (Req_dec_T _ _); [reflexivity|]. f_equal.
  assert (Hpl : forall i, pool_label B (data (map_tensor g l)) i
                          = g (pool_label B (data l) i))
    by (intros i; apply (pool_label_map g B (data l) i HB Hl)).
  apply cf_loss_ext.
  - reflexivity.
  - intros i j. unfold label_pos. f_equal.
    fold (pool_label B (data (map_tensor g l)) i).
    fold (pool_label B (data (map_tensor g l)) j).
    fold (pool_label B (data l) i). fold (pool_label B (data l) j).
    rewrite !Hpl, !float_req.
    pose proof (isometry_eq g (pool_label B (data l) i) (pool_label B (data l) j) Hg)
      as Hiff.
    destruct (Req_dec_T (g (pool_label B (data l) i)) (g (pool_label B (data l) j)));
      destruct (Req_dec_T (pool_label B (data l) i) (pool_label B (data l) j));
      try reflexivity; exfalso; tauto.
  - intros k j. unfold ref_weight. rewrite !Hpl. apply Hg.
Qed.

Lemma label_isometry_invariance_witness :
  value (construct demo_loss demo_features
           (Some (map_tensor (fun x => 3 - x) demo_labels)) None)
  = value (construct demo_loss demo_features (Some demo_labels) None).
Proof.
  apply (label_isometry_invariance demo_loss demo_features demo_labels
           (fun x => 3 - x) 2 1).
  - exact valid_demo_features.
  - reflexivity.
  - intros x y. replace (3 - x - (3 - y)) with (- (x - y)) by lra.
    apply Rabs_Ropp.
Defined.

Lemma slice_map {A B} (g : A -> B) off len l :
  slice off len (map g l) = map g (slice off len l).
Proof. unfold slice. rewrite skipn_map, firstn_map. reflexivity. Qed.

Lemma dot_opp u : forall v, dot (map Ropp u) (map Ropp v) = dot u v.
Proof.
  unfold dot. induction u as [|x u IH]; intros [|y v]; simpl; try reflexivity.
  rewrite IH. lra.
Qed.

Lemma valid_features_map g f B V D :
  valid_features f B V D -> valid_features (map_tensor g f) B V D.
Proof.
  intros (rest & Hs & Hr & Hp & Hw & HB & HV & HD).
  exists rest. unfold map_tensor, wf_tensor in *. simpl.
  rewrite length_map. repeat split; assumption.
Qed.

Lemma pool_vec_map g sh dat i :
  pool_vec (mkTensor sh (map g dat)) i = map g (pool_vec (mkTensor sh dat) i).
Proof. unfold pool_vec, frow, dim. simpl. apply slice_map. Qed.

(** X9: the loss depends on the features only through their dot products:
    negating every entry of the features leaves the result of the call
    unchanged. *)
Theorem feature_negation_invariance self f l B D :
  valid_features f B 2 D -> length (data l) = B ->
  value (construct self (map_tensor Ropp f) (Some l) None)
  = value (construct self f (Some l) None).
Proof.
  intros Hf Hl.
  pose proof (valid_features_map Ropp f B 2 D Hf) as Hf'.
  unfold construct.
  rewrite (value_construct_labels_any true self _ l B D Hf' Hl).
  rewrite (value_construct_labels_any true self f l B D Hf Hl).
  destruct (_ || _)%bool; [|reflexivity].
  destruct (Req_dec_T _ _); [reflexivity|]. f_equal.
  assert (Hsim : forall i j,
            ref_sim (temperature self)
              (pool_vec (mkTensor [B; 2; D]%nat (data (map_tensor Ropp f)))) i j
            = ref_sim (temperature self)
                (pool_vec (mkTensor [B; 2; D]%nat (data f))) i j).
  { intros i j. unfold ref_sim. simpl data. rewrite !pool_vec_map, dot_opp.
    reflexivity. }
  apply cf_loss_ext; try reflexivity.
  intros i j. unfold ref_logit, ref_rowmax. rewrite Hsim. f_equal. f_equal.
  apply tab_ext. intros k _. apply Hsim.
Qed.

Lemma feature_negation_invariance_witness :
  value (construct demo_loss (map_tensor Ropp demo_features) (Some demo_labels) None)
  = value (construct demo_loss demo_features (Some demo_labels) None).
Proof.
  apply (feature_negation_invariance demo_loss demo_features demo_labels 2 1).
  - exact valid_demo_features.
  - reflexivity.
Defined.

(** ** Line 91: the loss is proportional to 1 / base_temperature *)

Lemma inf_scaled_of_pos pos a :
  0 < a -> inf_scaled pos a = if pos then PInf else NInf.
Proof.
  intros H. unfold inf_scaled. destruct (Rlt_dec 0 a); [reflexivity | contradiction].
Qed.

Lemma inf_scaled_mul pos a c :
  0 < a -> inf_scaled pos (a * c) = fmul (Fin a) (inf_scaled pos c).
Proof.
  intros Ha. unfold inf_scaled at 2.
  destruct (Rlt_dec 0 c) as [Hc|Hc].
  - rewrite inf_scaled_of_pos by nra.
    destruct pos; simpl; rewrite inf_scaled_of_pos by exact Ha; reflexivity.
  - destruct (Rlt_dec c 0) as [Hc'|Hc'].
    + unfold inf_scaled. destruct (Rlt_dec 0 (a * c)); [nra|].
      destruct (Rlt_dec (a * c) 0); [|nra].
      destruct pos; simpl; rewrite inf_scaled_of_pos by exact Ha; reflexivity.
    + replace c with 0 by lra. rewrite Rmult_0_r. apply inf_scaled_0.
Qed.

Lemma fmul_fmul_pos a c x :
  0 < a -> fmul (Fin (a * c)) x = fmul (Fin a) (fmul (Fin c) x).
Proof.
  intros Ha. destruct x; simpl.
  - f_equal. ring.
  - apply inf_scaled_mul. exact Ha.
  - apply inf_scaled_mul. exact Ha.
  - reflexivity.
Qed.

Lemma fmul_fadd_pos a x y :
  0 < a -> fmul (Fin a) (fadd x y) = fadd (fmul (Fin a) x) (fmul (Fin a) y).
Proof.
  intros Ha. destruct x, y; simpl; rewrite ?inf_scaled_of_pos by exact Ha;
    try reflexivity. f_equal. ring.
Qed.

Lemma fsum_scale a l :
  0 < a -> fsum (map (fmul (Fin a)) l) = fmul (Fin a) (fsum l).
Proof.
  intros Ha. induction l as [|x l IH].
  - simpl. f_equal. ring.
  - change (fadd (fmul (Fin a) x) (fsum (map (fmul (Fin a)) l))
            = fmul (Fin a) (fadd x (fsum l))).
    rewrite IH, fmul_fadd_pos by exact Ha. reflexivity.
Qed.

Lemma fmul_pos_PInf a : 0 < a -> fmul (Fin a) PInf = PInf.
Proof. intros Ha. exact (inf_scaled_of_pos true a Ha). Qed.

Lemma fmul_pos_NInf a : 0 < a -> fmul (Fin a) NInf = NInf.
Proof. intros Ha. exact (inf_scaled_of_pos false a Ha). Qed.

Lemma fdiv_scale a s y :
  0 < a -> fdiv (fmul (Fin a) s) (Fin y) = fmul (Fin a) (fdiv s (Fin y)).
Proof.
  intros Ha. destruct s as [x| | |].
  - change (fmul (Fin a) (Fin x)) with (Fin (a * x)).
    unfold fdiv. destruct (Req_dec_T y 0); [apply inf_scaled_mul; exact Ha|].
    change (Fin (a * x / y) = Fin (a * (x / y))). f_equal. unfold Rdiv. ring.
  - rewrite fmul_pos_PInf by exact Ha. unfold fdiv.
    destruct (Rlt_dec y 0);
      [rewrite fmul_pos_NInf by exact Ha | rewrite fmul_pos_PInf by exact Ha];
      reflexivity.
  - rewrite fmul_pos_NInf by exact Ha. unfold fdiv.
    destruct (Rlt_dec y 0);
      [rewrite fmul_pos_PInf by exact Ha | rewrite fmul_pos_NInf by exact Ha];
      reflexivity.
  - reflexivity.
Qed.

Lemma cf_loss_scale a c Na N L P W :
  0 < a ->
  cf_loss (a * c) Na N L P W = fmul (Fin a) (cf_loss c Na N L P W).
Proof.
  intros Ha. unfold cf_loss, fmean. rewrite !length_tab.
  rewrite <- fdiv_scale, <- fsum_scale by exact Ha.
  rewrite map_tab. f_equal. f_equal. apply tab_ext. intros i _.
  apply fmul_fmul_pos. exact Ha.
Qed.

(** X10: multiplying [base_temperature] by k > 0 divides the returned loss
    by k (and leaves an exception unchanged), on valid labelled two-view
    inputs. *)
Theorem base_temperature_scales_loss self f l k B D :
  valid_features f B 2 D -> length (data l) = B -> 0 < k ->
  value (construct (with_base_temperature self (k * base_temperature self))
           f (Some l) None)
  = match value (construct self f (Some l) None) with
    | Ok v => Ok (fmul (Fin (/ k)) v)
    | Err e => Err e
    end.
Proof.
  intros Hf Hl Hk. unfold construct.
  rewrite (value_construct_labels_any true _ f l B D Hf Hl).
  rewrite (value_construct_labels_any true self f l B D Hf Hl).
  unfold with_base_temperature, anchor_blocks. cbn [contrast_mode temperature base_temperature].
  destruct (_ || _)%bool; [|reflexivity].
  destruct (Req_dec_T (base_temperature self) 0) as [E|E];
    destruct (Req_dec_T (k * base_temperature self) 0) as [E'|E'];
    try reflexivity.
  - exfalso. apply E'. rewrite E. ring.
  - exfalso. apply E. nra.
  - f_equal.
    assert (Hinv : 0 < / k) by (apply Rinv_0_lt_compat; exact Hk).
    rewrite <- (cf_loss_scale (/ k)) by exact Hinv.
    f_equal. field. split; lra.
Qed.

Lemma base_temperature_scales_loss_witness :
  value (construct (with_base_temperature demo_loss (2 * base_temperature demo_loss))
           demo_features (Some demo_labels) None)
  = match value (construct demo_loss demo_features (Some demo_labels) None) with
    | Ok v => Ok (fmul (Fin (/ 2)) v)
    | Err e => Err e
    end.
Proof.
  apply (base_temperature_scales_loss demo_loss demo_features demo_labels 2 2 1).
  - exact valid_demo_features.
  - reflexivity.
  - lra.
Defined.

(** ** Lines 14-19: the default hyperparameters *)

(** X11: an object built with the defaults of [__init__] (temperature 0.5,
    mode 'all', base_temperature 0.07) raises nothing on a valid labelled
    two-view input: the call returns the reference loss over the 2B
    anchors with the factor -(0.5 / 0.07). *)
Theorem default_object_returns_loss f l B D :
  valid_features f B 2 D -> length (data l) = B ->
  value (construct (init None None None) f (Some l) None)
  = Ok (ref_loss (5 / 10) (7 / 100) (2 * B) (2 * B)
          (pool_vec (mkTensor [B; 2; D]%nat (data f)))
          (pool_label B (data l))).
Proof.
  intros Hf Hl. unfold construct.
  rewrite (value_construct_labels true (init None None None) f l B D Hf
             (or_intror eq_refl) Hl).
  cbv zeta. unfold init at 1. cbn [base_temperature].
  destruct (Req_dec_T (7 / 100) 0) as [E|_]; [lra|].
  f_equal. apply cf_loss_ref.
Qed.

Lemma default_object_returns_loss_witness :
  value (construct (init None None None) demo_features (Some demo_labels) None)
  = Ok (ref_loss (5 / 10) (7 / 100) (2 * 2) (2 * 2)
          (pool_vec (mkTensor [2; 2; 1]%nat (data demo_features)))
          (pool_label 2 (data demo_labels))).
Proof.
  apply (default_object_returns_loss demo_features demo_labels 2 1).
  - exact valid_demo_features.
  - reflexivity.
Defined.

(** ** Mode "all" treats the two views alike *)

Lemma tab_app_cases {A} n m (g h : nat -> A) :
  tab n g ++ tab m h
  = tab (n + m) (fun t => if (t <? n)%nat then g t else h (t - n)%nat).
Proof.
  rewrite tab_app. f_equal.
  - apply tab_ext. intros i Hi.
    destruct (Nat.ltb_spec i n); [reflexivity | lia].
  - apply tab_ext. intros i _.
    destruct (Nat.ltb_spec (n + i) n); [lia | f_equal; lia].
Qed.

Section SwapViews.
Variables (B D : nat) (f : tensor).
Hypothesis Hf : valid_features f B 2 D.

Let dat := data f.

Lemma swap_views_bounds :
  (1 <= B)%nat /\ (1 <= D)%nat /\ length dat = (B * 2 * D)%nat /\
  prod_dims (skipn 2 (shape f)) = D /\ dim 0 f = B.
Proof.
  pose proof (valid_features_length f B 2 D Hf) as Hlen.
  pose proof (dim0_valid f B 2 D Hf) as Hd0.
  destruct Hf as (rest & Hs & _ & Hp & _ & HB & _ & HD).
  repeat split; try assumption. rewrite Hs. exact Hp.
Qed.

Lemma data_swap_views :
  data (swap_views f)
  = tab (B * (D + D))
      (fun q => if (q mod (D + D) <? D)%nat
                then nth ((q / (D + D) * 2 + 1) * D + q mod (D + D)) dat 0
                else nth (q / (D + D) * 2 * D + (q mod (D + D) - D)) dat 0).
Proof.
  destruct swap_views_bounds as (HB & HD & Hlen & Hp & Hd0).
  unfold swap_views. cbv zeta. cbn [data]. rewrite Hp, Hd0, flat_map_concat_map.
  change (map ?g (seq 0 B)) with (tab B g).
  rewrite (tab_ext B _
             (fun b => tab (D + D)
                (fun t => if (t <? D)%nat
                          then nth ((b * 2 + 1) * D + t) dat 0
                          else nth (b * 2 * D + (t - D)) dat 0))).
  - apply (concat_tab_tab B (D + D)
             (fun b t => if (t <? D)%nat
                         then nth ((b * 2 + 1) * D + t) dat 0
                         else nth (b * 2 * D + (t - D)) dat 0)).
    lia.
  - intros b Hb.
    assert (Hle : ((b * 2 + 1) * D + D <= B * 2 * D)%nat).
    { assert (b * 2 + 2 <= B * 2)%nat by lia.
      replace ((b * 2 + 1) * D + D)%nat with ((b * 2 + 2) * D)%nat by lia.
      apply Nat.mul_le_mono_r. assumption. }
    rewrite (slice_tab 0 ((b * 2 + 1) * D) D) by (fold dat; lia).
    rewrite (slice_tab 0 (b * 2 * D) D) by (fold dat; lia).
    apply tab_app_cases.
Qed.

Lemma valid_features_swap : valid_features (swap_views f) B 2 D.
Proof.
  pose proof data_swap_views as Hd.
  pose proof (valid_features_length f B 2 D Hf) as Hlen.
  destruct Hf as (rest & Hs & Hr & Hp & Hw & HB & HV & HD).
  exists rest. unfold wf_tensor in *. rewrite Hd, length_tab.
  change (shape (swap_views f)) with (shape f).
  repeat split; try assumption. rewrite <- Hw, Hlen. lia.
Qed.

Lemma pool_vec_swap i :
  (i < 2 * B)%nat ->
  pool_vec (mkTensor [B; 2; D]%nat (data (swap_views f))) i
  = pool_vec (mkTensor [B; 2; D]%nat (data f)) (swap_index B i).
Proof.
  intros Hi. destruct swap_views_bounds as (HB & HD & Hlen & _ & _).
  unfold pool_vec. change (dim 0 _) with B. unfold frow, dim. simpl nth.
  rewrite data_swap_views. cbn [data]. fold dat.
  set (b := (i mod B)%nat). set (v := (i / B)%nat).
  assert (Hb : (b < B)%nat) by (apply Nat.mod_upper_bound; lia).
  assert (Hv : (v < 2)%nat) by (apply Nat.Div0.div_lt_upper_bound; lia).
  assert (Hiv : i = (b + v * B)%nat)
    by (unfold b, v; rewrite (Nat.div_mod_eq i B) at 1; lia).
  assert (Hbound : forall b' v', (b' < B)%nat -> (v' < 2)%nat ->
            ((b' * 2 + v') * D + D <= B * 2 * D)%nat).
  { intros b' v' Hb' Hv'. assert (b' * 2 + v' + 1 <= B * 2)%nat by lia.
    replace ((b' * 2 + v') * D + D)%nat with ((b' * 2 + v' + 1) * D)%nat by lia.
    apply Nat.mul_le_mono_r. assumption. }
  rewrite (slice_tab 0 ((b * 2 + v) * D) D)
    by (rewrite length_tab;
        replace (B * (D + D))%nat with (B * 2 * D)%nat by lia;
        apply Hbound; assumption).
  assert (Hsw : (swap_index B i mod B = b)%nat /\ (swap_index B i / B = 1 - v)%nat).
  { unfold swap_index. destruct (Nat.lt_ge_cases i B) as [L|L].
    - assert (v = 0%nat) by (unfold v; apply Nat.div_small; exact L).
      assert (b = i) by (unfold b; apply Nat.mod_small; exact L).
      rewrite (Nat.mod_small (i + B)) by lia.
      replace (i + B)%nat with (i + 1 * B)%nat by lia.
      rewrite Nat.Div0.mod_add, Nat.div_add by lia.
      rewrite Nat.div_small by exact L. split; lia.
    - assert (v = 1%nat) by lia.
      replace (i + B)%nat with ((i - B) + 1 * (2 * B))%nat by lia.
      rewrite Nat.Div0.mod_add, (Nat.mod_small (i - B)) by lia.
      assert (i - B = b)%nat by lia.
      rewrite (Nat.mod_small (i - B)), (Nat.div_small (i - B)) by lia.
      split; lia. }
  destruct Hsw as [Hsm Hsd]. rewrite Hsm, Hsd.
  rewrite (slice_tab 0 ((b * 2 + (1 - v)) * D) D dat)
    by (rewrite Hlen; apply Hbound; lia).
  apply tab_ext. intros d Hd.
  assert (Hq : ((b * 2 + v) * D + d = (v * D + d) + b * (D + D))%nat) by ring.
  rewrite nth_tab
    by (replace (B * (D + D))%nat with (B * 2 * D)%nat by lia;
        pose proof (Hbound b v Hb Hv); lia).
  rewrite Hq, Nat.div_add, Nat.Div0.mod_add by lia.
  assert (Hvd : (v * D + d < D + D)%nat) by nia.
  rewrite (Nat.div_small (v * D + d)), (Nat.mod_small (v * D + d)) by exact Hvd.
  destruct v as [|[|v]]; [| |lia].
  - simpl (0 * D + d)%nat. destruct (Nat.ltb_spec d D); [|lia].
    f_equal; lia.
  - destruct (Nat.ltb_spec (1 * D + d) D); [lia|].
    f_equal; lia.
Qed.
End SwapViews.

Lemma swap_index_perm B :
  Permutation (tab (2 * B) (swap_index B)) (seq 0 (2 * B)).
Proof.
  replace (2 * B)%nat with (B + B)%nat by lia.
  rewrite tab_app, seq_app.
  rewrite (tab_ext B (swap_index B) (fun p => (B + p)%nat)).
  - rewrite (tab_ext B (fun i => swap_index B (B + i)) (fun p => (0 + p)%nat)).
    + rewrite <- !seq_tab. apply Permutation_app_comm.
    + intros i Hi. unfold swap_index.
      replace (B + i + B)%nat with (i + 1 * (2 * B))%nat by lia.
      rewrite Nat.Div0.mod_add. apply Nat.mod_small. lia.
  - intros i Hi. unfold swap_index.
    replace (B + B)%nat with (2 * B)%nat by lia.
    rewrite Nat.mod_small by lia. lia.
Qed.

Lemma swap_index_mod B i :
  (1 <= B)%nat -> (i < 2 * B)%nat -> (swap_index B i mod B = i mod B)%nat.
Proof.
  intros HB Hi. unfold swap_index. destruct (Nat.lt_ge_cases i B) as [L|L].
  - rewrite (Nat.mod_small (i + B)) by lia.
    replace (i + B)%nat with (i + 1 * B)%nat by lia. apply Nat.Div0.mod_add.
  - replace (i + B)%nat with ((i - B) + 1 * (2 * B))%nat by lia.
    rewrite Nat.Div0.mod_add, (Nat.mod_small (i - B) (2 * B)) by lia.
    replace i with ((i - B) + 1 * B)%nat at 2 by lia.
    symmetry. apply Nat.Div0.mod_add.
Qed.

(** X12: in mode "all" the two views play the same role: exchanging the
    two views of every sample leaves the result of the call unchanged. *)
Theorem view_swap_invariance_all self f l B D :
  valid_features f B 2 D -> length (data l) = B ->
  contrast_mode self = "all"%string ->
  value (construct self (swap_views f) (Some l) None)
  = value (construct self f (Some l) None).
Proof.
  intros Hf Hl Hmode.
  pose proof (valid_features_swap B D f Hf) as Hf'.
  assert (HB : (1 <= B)%nat) by (destruct Hf as (? & _ & _ & _ & _ & H & _); exact H).
  assert (Hm : valid_mode self) by (right; exact Hmode).
  unfold construct.
  rewrite (value_construct_labels true self _ l B D Hf' Hm Hl).
  rewrite (value_construct_labels true self f l B D Hf Hm Hl).
  cbv zeta. destruct (Req_dec_T _ _); [reflexivity|]. f_equal.
  unfold anchor_blocks. rewrite Hmode. simpl String.eqb. cbv iota.
  apply (cf_loss_reindex _ (2 * B) (2 * B) (swap_index B)).
  - apply swap_index_perm.
  - apply swap_index_perm.
  - lia.
  - intros i j Hi Hj.
    apply (ref_logit_reindex _ _ _ _ _ i j (swap_index_perm B));
      [intros k Hk; apply (pool_vec_swap B D f Hf k Hk) | exact Hi | exact Hj].
  - intros i j Hi Hj. unfold label_pos.
    rewrite (self_excl_reindex (2 * B) _ (swap_index_perm B)) by assumption.
    rewrite !swap_index_mod by assumption. reflexivity.
  - intros i j Hi Hj. unfold ref_weight, pool_label.
    rewrite !swap_index_mod by assumption. reflexivity.
Qed.

Lemma view_swap_invariance_all_witness :
  value (construct demo_loss (swap_views demo_features) (Some demo_labels) None)
  = value (construct demo_loss demo_features (Some demo_labels) None).
Proof.
  apply (view_swap_invariance_all demo_loss demo_features demo_labels 2 1).
  - exact valid_demo_features.
  - reflexivity.
  - reflexivity.
Defined.

Example swap_views_demo_features :
  data (swap_views demo_features) = [2; 1; 4; 3].
Proof. reflexivity. Qed.

(** ** Rescaling the labels *)

Lemma fadd_inf_scaled_fin pos p y :
  fadd (inf_scaled pos p) (Fin y) = inf_scaled pos p.
Proof.
  unfold inf_scaled. destruct (Rlt_dec 0 p); [destruct pos; reflexivity|].
  destruct (Rlt_dec p 0); [destruct pos; reflexivity | reflexivity].
Qed.

Lemma fmul_fadd_fin p x c :
  fmul (Fin p) (fadd x (Fin c)) = fadd (fmul (Fin p) x) (Fin (p * c)).
Proof.
  destruct x as [y| | |].
  - simpl. f_equal. ring.
  - change (inf_scaled true p = fadd (inf_scaled true p) (Fin (p * c))).
    rewrite fadd_inf_scaled_fin. reflexivity.
  - change (inf_scaled false p = fadd (inf_scaled false p) (Fin (p * c))).
    rewrite fadd_inf_scaled_fin. reflexivity.
  - reflexivity.
Qed.

Lemma fadd_fin_gather u c v d :
  fadd (fadd u (Fin c)) (fadd v (Fin d)) = fadd (fadd u v) (Fin (c + d)).
Proof. destruct u, v; simpl; try reflexivity. f_equal. lra. Qed.

Lemma fsum_fadd_fin {X} (u : X -> fval) (c : X -> R) l :
  fsum (map (fun j => fadd (u j) (Fin (c j))) l)
  = fadd (fsum (map u l)) (Fin (rsum (map c l))).
Proof.
  induction l as [|j l IH].
  - simpl. f_equal. lra.
  - change (fadd (fadd (u j) (Fin (c j)))
                 (fsum (map (fun j => fadd (u j) (Fin (c j))) l))
            = fadd (fadd (u j) (fsum (map u l)))
                   (Fin (c j + rsum (map c l)))).
    rewrite IH. apply fadd_fin_gather.
Qed.

Lemma fdiv_fadd_fin s d y :
  d <> 0 ->
  fdiv (fadd s (Fin (d * y))) (Fin d) = fadd (fdiv s (Fin d)) (Fin y).
Proof.
  intros Hd. destruct s as [x| | |].
  - simpl. destruct (Req_dec_T d 0); [contradiction|]. simpl. f_equal. field.
    exact Hd.
  - simpl. destruct (Rlt_dec d 0); reflexivity.
  - simpl. destruct (Rlt_dec d 0); reflexivity.
  - reflexivity.
Qed.

Lemma rsum_const {X} (y : R) (l : list X) :
  rsum (map (fun _ => y) l) = INR (length l) * y.
Proof.
  induction l as [|x l IH].
  - simpl. lra.
  - change (y + rsum (map (fun _ => y) l) = INR (S (length l)) * y).
    rewrite IH, S_INR. lra.
Qed.

Lemma fsub_flog_scale x a d :
  0 < a ->
  fsub (Fin x) (flog (a * d)) = fadd (fsub (Fin x) (flog d)) (Fin (- ln a)).
Proof.
  intros Ha. unfold flog.
  destruct (Rlt_dec 0 d) as [Hd|Hd].
  - destruct (Rlt_dec 0 (a * d)) as [_|H]; [|exfalso; apply H; nra].
    rewrite ln_mult by assumption. simpl. f_equal. lra.
  - destruct (Rlt_dec 0 (a * d)) as [H|_]; [exfalso; apply Hd; nra|].
    destruct (Req_dec_T d 0) as [E|E].
    + destruct (Req_dec_T (a * d) 0) as [_|H]; [reflexivity|].
      exfalso. apply H. rewrite E. ring.
    + destruct (Req_dec_T (a * d) 0) as [H|_]; [|reflexivity].
      exfalso. apply E. nra.
Qed.

Lemma cf_loss_weight_scale c Na N L P W W' a :
  0 < a -> (1 <= Na)%nat ->
  (forall k j, W' k j = a * W k j) ->
  (forall i, (i < Na)%nat -> rsum (tab N (P i)) <> 0) ->
  cf_loss c Na N L P W' = fadd (cf_loss c Na N L P W) (Fin (c * - ln a)).
Proof.
  intros Ha HNa HW Hrow.
  assert (Hden : forall i j, cf_den N L W' i j = a * cf_den N L W i j).
  { intros i j. unfold cf_den, tab. rewrite <- rsum_scale. f_equal.
    apply map_ext. intros k. rewrite HW. ring. }
  assert (Hlp : forall i j,
            cf_log_prob N L W' i j = fadd (cf_log_prob N L W i j) (Fin (- ln a))).
  { intros i j. unfold cf_log_prob. rewrite Hden. apply fsub_flog_scale. exact Ha. }
  assert (Hml : forall i, (i < Na)%nat ->
            cf_mean_log_prob_pos N L P W' i
            = fadd (cf_mean_log_prob_pos N L P W i) (Fin (- ln a))).
  { intros i Hi. unfold cf_mean_log_prob_pos.
    rewrite (tab_ext N _ (fun j => fadd (fmul (Fin (P i j)) (cf_log_prob N L W i j))
                                        (Fin (P i j * - ln a))))
      by (intros j _; rewrite Hlp; apply fmul_fadd_fin).
    unfold tab. rewrite fsum_fadd_fin.
    rewrite (map_ext (fun j => P i j * - ln a) (fun j => - ln a * P i j))
      by (intros; ring).
    rewrite rsum_scale, (Rmult_comm (- ln a)).
    apply fdiv_fadd_fin. apply Hrow. exact Hi. }
  unfold cf_loss, fmean. rewrite !length_tab.
  rewrite (tab_ext Na _ (fun i => fadd (fmul (Fin c) (cf_mean_log_prob_pos N L P W i))
                                       (Fin (c * - ln a))))
    by (intros i Hi; rewrite Hml by exact Hi; apply fmul_fadd_fin).
  unfold tab. rewrite fsum_fadd_fin, rsum_const, length_seq.
  apply fdiv_fadd_fin. apply not_0_INR. lia.
Qed.

(** X14: multiplying every label by s <> 0 multiplies the weights of line
    52 by |s| and keeps the mask; the returned loss is shifted by the
    constant (temperature / base_temperature) * ln |s| (and an exception is
    unchanged), on valid labelled two-view inputs. *)
Theorem label_scaling_shifts_loss self f l s B D :
  valid_features f B 2 D -> length (data l) = B -> s <> 0 ->
  value (construct self f (Some (map_tensor (fun x => s * x) l)) None)
  = match value (construct self f (Some l) None) with
    | Ok v => Ok (fadd v (Fin (temperature self / base_temperature self
                               * ln (Rabs s))))
    | Err e => Err e
    end.
Proof.
  intros Hf Hl Hs.
  assert (HB : (1 <= B)%nat) by (destruct Hf as (? & _ & _ & _ & _ & H & _); exact H).
  assert (Hl' : length (data (map_tensor (fun x => s * x) l)) = B)
    by (simpl; rewrite length_map; exact Hl).
  pose proof (anchor_blocks_bounds self 2 (le_S _ _ (le_n 1))) as Hab.
  unfold construct.
  rewrite (value_construct_labels_any true self f _ B D Hf Hl').
  rewrite (value_construct_labels_any true self f l B D Hf Hl).
  destruct (_ || _)%bool; [|reflexivity].
  destruct (Req_dec_T _ _); [reflexivity|]. f_equal.
  assert (Hpl : forall i, pool_label B (data (map_tensor (fun x => s * x) l)) i
                          = s * pool_label B (data l) i)
    by (intros i; apply (pool_label_map (fun x => s * x) B (data l) i HB Hl)).
  match goal with
  | |- cf_loss ?c ?Na ?N ?L _ ?W' = _ =>
      transitivity (cf_loss c Na N L (label_pos B (data l)) W')
  end.
  - apply cf_loss_ext; try reflexivity.
    intros i j. unfold label_pos. f_equal.
    fold (pool_label B (data (map_tensor (fun x => s * x) l)) i).
    fold (pool_label B (data (map_tensor (fun x => s * x) l)) j).
    fold (pool_label B (data l) i). fold (pool_label B (data l) j).
    rewrite !Hpl, !float_req.
    destruct (Req_dec_T (s * pool_label B (data l) i) (s * pool_label B (data l) j))
      as [E|E];
      destruct (Req_dec_T (pool_label B (data l) i) (pool_label B (data l) j))
      as [E'|E']; try reflexivity; exfalso.
    + apply E'. apply (Rmult_eq_reg_l s); assumption.
    + apply E. rewrite E'. reflexivity.
  - rewrite (cf_loss_weight_scale _ _ _ _ _
               (ref_weight (pool_label B (data l))) _ (Rabs s)).
    + f_equal. f_equal. ring.
    + apply Rabs_pos_lt. exact Hs.
    + nia.
    + intros k j. unfold ref_weight. rewrite !Hpl, <- Rabs_mult. f_equal. ring.
    + intros i Hi.
      assert (0 < rsum (tab (2 * B) (label_pos B (data l) i)))
        by (apply positive_row_sum; [exact HB | nia]).
      lra.
Qed.

Lemma label_scaling_shifts_loss_witness :
  value (construct demo_loss demo_features
           (Some (map_tensor (fun x => 2 * x) demo_labels)) None)
  = match value (construct demo_loss demo_features (Some demo_labels) None) with
    | Ok v => Ok (fadd v (Fin (temperature demo_loss / base_temperature demo_loss
                               * ln (Rabs 2))))
    | Err e => Err e
    end.
Proof.
  apply (label_scaling_shifts_loss demo_loss demo_features demo_labels 2 2 1).
  - exact valid_demo_features.
  - reflexivity.
  - lra.
Defined.
